(** * web-queue: the advanced queue engine

    A shallow embedding of [src/core/advanced-queue.ts],
    [src/core/advanced-topic-queue.ts], [src/utils/types.ts] and of the
    helpers [generateUniqueId] / [sortByPriorityAndTime].

    Modelling conventions.
    - JavaScript numbers that the engine handles (priorities, timestamps,
      delays, attempt counters, option values) are integers, modelled as [Z];
      [NaN], infinities and fractions are outside the model.
    - Message objects are mutable and shared by reference: the three
      collections of a queue are arrays of references into one object store
      ([heap]); a reference is the index at which the object was allocated.
    - [Date.now()] is an input: every call site of [Date.now()] inside an
      operation is a separate argument of the embedded operation.
    - [generateUniqueId()] draws a time part and a random part; the two
      base-36 strings are inputs of the embedded function.
    - Persistence (storage drivers, timers) is not modelled: the queue is
      the one built with [persistenceEnabled = false]; a tick of the
      delayed-check timer is a call of [checkDelayedMessages]. *)

From stdpp Require Import base option list sorting strings gmap.
From Stdlib Require Import ZArith Lia.

Open Scope Z_scope.

(** ** [src/utils/types.ts] *)

Inductive MessageStatus : Type :=
  | PENDING
  | PROCESSING
  | COMPLETED
  | FAILED
  | DELAYED
  | DEAD_LETTER.

#[global] Instance MessageStatus_eq_dec : EqDecision MessageStatus.
Proof. solve_decision. Defined.

Record QueueOptions : Type := mkQueueOptions {
  maxRetries : Z;
  retryDelay : Z;
  persistenceEnabled : bool;
  persistenceDriver : string;
  persistenceInterval : Z;
  deadLetterEnabled : bool;
  autoCheckDelayed : bool;
  delayedCheckInterval : Z
}.

Definition DEFAULT_QUEUE_OPTIONS : QueueOptions :=
  {| maxRetries := 3;
     retryDelay := 1000;
     persistenceEnabled := false;
     persistenceDriver := "memory";
     persistenceInterval := 5000;
     deadLetterEnabled := true;
     autoCheckDelayed := false;
     delayedCheckInterval := 100 |}.

(** The option bag of [enqueue]: every field may be absent. *)
Record EnqueueOptions : Type := mkEnqueueOptions {
  opt_priority : option Z;
  opt_delay : option Z;
  opt_id : option string
}.

Definition no_options : EnqueueOptions :=
  {| opt_priority := None; opt_delay := None; opt_id := None |}.

(** JavaScript truthiness of an optional number ([undefined] and [0] are
    falsy) and of an optional string ([undefined] and the empty string). *)
Definition truthy_number (o : option Z) : bool :=
  match o with
  | Some n => negb (n =? 0)
  | None => false
  end.

Definition truthy_string (o : option string) : bool :=
  match o with
  | Some EmptyString => false
  | Some (String _ _) => true
  | None => false
  end.

(** ** [src/utils/helpers.ts] *)

(** [`${timestampPart}-${randomPart}`] *)
Definition generateUniqueId (timestampPart randomPart : string) : string :=
  timestampPart +:+ "-" +:+ randomPart.

(** ** [Array.prototype] operations used by the engine *)

Section JSArray.
Context {A : Type}.

(** [Array.prototype.sort(cmp)]: a stable sort; [cmp a b <= 0] keeps [a]
    before [b].  Written as a stable insertion sort. *)
Fixpoint sort_insert (cmp : A → A → Z) (x : A) (l : list A) : list A :=
  match l with
  | [] => [x]
  | y :: l' => if cmp x y <=? 0 then x :: y :: l' else y :: sort_insert cmp x l'
  end.

Definition Array_sort (cmp : A → A → Z) (l : list A) : list A :=
  foldr (sort_insert cmp) [] l.

(** [arr.push(x)] *)
Definition Array_push (l : list A) (x : A) : list A := l ++ [x].

(** [arr.splice(index, 1)] *)
Definition Array_splice1 (index : nat) (l : list A) : list A := delete index l.
End JSArray.

Abbreviation ref := nat (only parsing).

Section Engine.
(** The payload type of the messages; the engine never inspects it. *)
Context {T : Type}.

Record Message : Type := mkMessage {
  id : string;
  data : T;
  status : MessageStatus;
  priority : Z;
  createdAt : Z;
  updatedAt : Z;
  delayUntil : option Z;
  processingStartedAt : option Z;
  processingAttempts : Z;
  failureReason : option string
}.

(** Field assignments [message.f = v]. *)
Definition set_status (s : MessageStatus) (m : Message) : Message :=
  mkMessage (id m) (data m) s (priority m) (createdAt m) (updatedAt m)
    (delayUntil m) (processingStartedAt m) (processingAttempts m) (failureReason m).
Definition set_updatedAt (t : Z) (m : Message) : Message :=
  mkMessage (id m) (data m) (status m) (priority m) (createdAt m) t
    (delayUntil m) (processingStartedAt m) (processingAttempts m) (failureReason m).
Definition set_delayUntil (d : option Z) (m : Message) : Message :=
  mkMessage (id m) (data m) (status m) (priority m) (createdAt m) (updatedAt m)
    d (processingStartedAt m) (processingAttempts m) (failureReason m).
Definition set_processingStartedAt (t : option Z) (m : Message) : Message :=
  mkMessage (id m) (data m) (status m) (priority m) (createdAt m) (updatedAt m)
    (delayUntil m) t (processingAttempts m) (failureReason m).
Definition set_processingAttempts (n : Z) (m : Message) : Message :=
  mkMessage (id m) (data m) (status m) (priority m) (createdAt m) (updatedAt m)
    (delayUntil m) (processingStartedAt m) n (failureReason m).
Definition set_failureReason (s : option string) (m : Message) : Message :=
  mkMessage (id m) (data m) (status m) (priority m) (createdAt m) (updatedAt m)
    (delayUntil m) (processingStartedAt m) (processingAttempts m) s.

(** [sortByPriorityAndTime(a, b)]: higher priority first, then older
    first. *)
Definition sortByPriorityAndTime (a b : Message) : Z :=
  if decide (priority a ≠ priority b) then priority b - priority a
  else createdAt a - createdAt b.

(** *** The object store *)

(** A reference [ref] is a natural number; the store [Heap] is the list
    of the objects allocated so far. *)
#[local] Abbreviation Heap := (list Message) (only parsing).

(** A callback [m => P(m)] applied to the object behind a reference. *)
Definition at_ref (h : Heap) (P : Message → Prop) (r : ref) : Prop :=
  from_option P False (h !! r).

#[global] Instance at_ref_dec h P `{∀ m, Decision (P m)} r :
  Decision (at_ref h P r).
Proof. unfold at_ref. destruct (h !! r); simpl; apply _. Defined.

Definition has_id (i : string) (m : Message) : Prop := id m = i.
Definition has_status (s : MessageStatus) (m : Message) : Prop := status m = s.

#[global] Instance has_id_dec i m : Decision (has_id i m).
Proof. unfold has_id. apply _. Defined.
#[global] Instance has_status_dec s m : Decision (has_status s m).
Proof. unfold has_status. apply _. Defined.

(** [arr.findIndex(P)] together with [arr[index]] and the object found:
    the index, the reference and the current contents of the object. *)
Definition Array_find (P : Message → Prop) `{∀ m, Decision (P m)}
    (h : Heap) (l : list ref) : option (nat * ref * Message) :=
  '(index, r) ← list_find (at_ref h P) l;
  m ← h !! r;
  Some (index, r, m).

(** [arr.filter(m => m.id !== messageId)] *)
Definition filter_out_id (h : Heap) (messageId : string) (l : list ref) : list ref :=
  filter (λ r, ¬ at_ref h (has_id messageId) r) l.

(** The comparator applied to two array slots. *)
Definition compare_refs (h : Heap) (a b : ref) : Z :=
  match h !! a, h !! b with
  | Some x, Some y => sortByPriorityAndTime x y
  | _, _ => 0
  end.

(** ** [src/core/advanced-queue.ts] *)

Record AdvancedQueue : Type := mkQueue {
  heap : Heap;
  messages : list ref;
  delayedMessages : list ref;
  deadLetterMessages : list ref;
  options : QueueOptions;
  processingMessages : gset string
}.

(** [new AdvancedQueue(options)] where [options] is already merged with
    the defaults. *)
Definition new_queue (o : QueueOptions) : AdvancedQueue :=
  mkQueue [] [] [] [] o ∅.

(** [message.delayUntil && message.delayUntil <= now] *)
Definition elapsed (now : Z) (m : Message) : bool :=
  truthy_number (delayUntil m) && bool_decide (default 0 (delayUntil m) ≤ now).

(** The loop of [checkDelayedMessages] over the delayed array; the
    accumulators are the store, [readyMessages] and [stillDelayed]. *)
Fixpoint sweep (now : Z) (l : list ref) (h : Heap) (readyMessages stillDelayed : list ref)
    : Heap * list ref * list ref :=
  match l with
  | [] => (h, readyMessages, stillDelayed)
  | r :: l' =>
      match h !! r with
      | Some m =>
          if elapsed now m
          then sweep now l' (<[r := set_updatedAt now (set_status PENDING m)]> h)
                     (Array_push readyMessages r) stillDelayed
          else sweep now l' h readyMessages (Array_push stillDelayed r)
      | None => sweep now l' h readyMessages (Array_push stillDelayed r)
      end
  end.

Definition checkDelayedMessages (now : Z) (q : AdvancedQueue) : AdvancedQueue :=
  let '(h, readyMessages, stillDelayed) := sweep now (delayedMessages q) (heap q) [] [] in
  mkQueue h
    (match readyMessages with
     | [] => messages q
     | _ :: _ => Array_sort (compare_refs h) (messages q ++ readyMessages)
     end)
    stillDelayed (deadLetterMessages q) (options q) (processingMessages q).

Definition findMessageById (i : string) (q : AdvancedQueue) : option (ref * Message) :=
  match Array_find (has_id i) (heap q) (messages q) with
  | Some (_, r, m) => Some (r, m)
  | None =>
      match Array_find (has_id i) (heap q) (delayedMessages q) with
      | Some (_, r, m) => Some (r, m)
      | None =>
          match Array_find (has_id i) (heap q) (deadLetterMessages q) with
          | Some (_, r, m) => Some (r, m)
          | None => None
          end
      end
  end.

(** [enqueue(data, options)]; [now] is [Date.now()], and
    [timestampPart], [randomPart] are what [generateUniqueId()] draws
    when the id option is falsy.  The result is the reference of the
    message returned. *)
Definition enqueue (now : Z) (timestampPart randomPart : string)
    (d : T) (o : EnqueueOptions) (q : AdvancedQueue) : ref * AdvancedQueue :=
  let i := if truthy_string (opt_id o) then default EmptyString (opt_id o)
           else generateUniqueId timestampPart randomPart in
  match (if truthy_string (opt_id o) then findMessageById i q else None) with
  | Some (existingMessage, _) => (existingMessage, q)
  | None =>
      let r : ref := length (heap q) in
      let message :=
        mkMessage i d
          (if truthy_number (opt_delay o) then DELAYED else PENDING)
          (default 0 (opt_priority o)) now now None None 0 None in
      if truthy_number (opt_delay o) && bool_decide (0 < default 0 (opt_delay o))
      then
        let h := heap q ++ [set_delayUntil (Some (now + default 0 (opt_delay o))) message] in
        (r, mkQueue h (messages q)
              (Array_sort (compare_refs h) (Array_push (delayedMessages q) r))
              (deadLetterMessages q) (options q) (processingMessages q))
      else
        let h := heap q ++ [message] in
        (r, mkQueue h
              (Array_sort (compare_refs h) (Array_push (messages q) r))
              (delayedMessages q) (deadLetterMessages q) (options q)
              (processingMessages q))
  end.

Definition peek (now : Z) (q : AdvancedQueue) : option ref * AdvancedQueue :=
  let q1 := checkDelayedMessages now q in
  (snd ∘ fst <$> Array_find (has_status PENDING) (heap q1) (messages q1), q1).

(** [dequeue()]: [t_sweep] is the reading inside [checkDelayedMessages],
    [t_start] and [t_upd] the two readings that stamp the message. *)
Definition dequeue (t_sweep t_start t_upd : Z) (q : AdvancedQueue)
    : option ref * AdvancedQueue :=
  let q1 := checkDelayedMessages t_sweep q in
  match Array_find (has_status PENDING) (heap q1) (messages q1) with
  | None => (None, q1)
  | Some (_, r, m) =>
      let m' := set_updatedAt t_upd
                  (set_processingStartedAt (Some t_start) (set_status PROCESSING m)) in
      (Some r,
       mkQueue (<[r := m']> (heap q1)) (messages q1) (delayedMessages q1)
         (deadLetterMessages q1) (options q1) ({[id m]} ∪ processingMessages q1))
  end.

Definition complete (now : Z) (messageId : string) (q : AdvancedQueue)
    : bool * AdvancedQueue :=
  match findMessageById messageId q with
  | None => (false, q)
  | Some (r, m) =>
      (true,
       mkQueue (<[r := set_updatedAt now (set_status COMPLETED m)]> (heap q))
         (messages q) (delayedMessages q) (deadLetterMessages q) (options q)
         (processingMessages q ∖ {[messageId]}))
  end.

(** [fail(messageId, reason)]: [t_upd] stamps [updatedAt], [t_retry] is
    the reading added to [retryDelay], [t_sweep] the reading of the
    immediate [checkDelayedMessages] when [autoCheckDelayed] is set. *)
Definition fail (t_upd t_retry t_sweep : Z) (messageId : string)
    (reason : option string) (q : AdvancedQueue) : bool * AdvancedQueue :=
  match findMessageById messageId q with
  | None => (false, q)
  | Some (r, m) =>
      let m1 := set_processingAttempts (processingAttempts m + 1)
                  (set_failureReason reason
                     (set_updatedAt t_upd (set_status FAILED m))) in
      let pm := processingMessages q ∖ {[messageId]} in
      if bool_decide (processingAttempts m1 < maxRetries (options q)) then
        let m2 := set_delayUntil (Some (t_retry + retryDelay (options q)))
                    (set_status DELAYED m1) in
        let h := <[r := m2]> (heap q) in
        let q1 :=
          mkQueue h
            (filter_out_id h messageId (messages q))
            (Array_sort (compare_refs h) (Array_push (delayedMessages q) r))
            (deadLetterMessages q) (options q) pm in
        (true, if autoCheckDelayed (options q) then checkDelayedMessages t_sweep q1 else q1)
      else if deadLetterEnabled (options q) then
        let h := <[r := set_status DEAD_LETTER m1]> (heap q) in
        (true,
         mkQueue h
           (filter_out_id h messageId (messages q))
           (filter_out_id h messageId (delayedMessages q))
           (Array_push (deadLetterMessages q) r) (options q) pm)
      else
        (true,
         mkQueue (<[r := m1]> (heap q)) (messages q) (delayedMessages q)
           (deadLetterMessages q) (options q) pm)
  end.

Definition cancelDelayed (messageId : string) (q : AdvancedQueue)
    : bool * AdvancedQueue :=
  match Array_find (has_id messageId) (heap q) (delayedMessages q) with
  | None => (false, q)
  | Some (index, _, _) =>
      (true,
       mkQueue (heap q) (messages q) (Array_splice1 index (delayedMessages q))
         (deadLetterMessages q) (options q) (processingMessages q))
  end.

Definition retryDeadLetter (now : Z) (messageId : string) (q : AdvancedQueue)
    : bool * AdvancedQueue :=
  match Array_find (has_id messageId) (heap q) (deadLetterMessages q) with
  | None => (false, q)
  | Some (index, r, m) =>
      let m' := set_delayUntil None
                  (set_failureReason None
                     (set_updatedAt now
                        (set_status PENDING
                           (set_processingStartedAt None
                              (set_processingAttempts 0 m))))) in
      let h := <[r := m']> (heap q) in
      (true,
       mkQueue h
         (Array_sort (compare_refs h) (Array_push (messages q) r))
         (delayedMessages q)
         (Array_splice1 index (deadLetterMessages q))
         (options q) (processingMessages q))
  end.

Definition size (q : AdvancedQueue) : nat :=
  length (filter (at_ref (heap q) (has_status PENDING)) (messages q)).

Definition totalSize (q : AdvancedQueue) : nat :=
  (length (messages q) + length (delayedMessages q) + length (deadLetterMessages q))%nat.

Definition clear (q : AdvancedQueue) : AdvancedQueue :=
  mkQueue (heap q) [] [] [] (options q) ∅.
End Engine.

Arguments Message : clear implicits.
Arguments AdvancedQueue : clear implicits.

Abbreviation Heap T := (list (Message T)) (only parsing).

(** ** Sequences of calls *)

Section Calls.
Context {T : Type}.

(** One call on a queue, with the readings of the clock and of the id
    generator it makes.  [Tick] is the delayed-check timer firing. *)
Inductive Op : Type :=
  | OpEnqueue (now : Z) (timestampPart randomPart : string) (d : T) (o : EnqueueOptions)
  | OpPeek (now : Z)
  | OpDequeue (t_sweep t_start t_upd : Z)
  | OpComplete (now : Z) (messageId : string)
  | OpFail (t_upd t_retry t_sweep : Z) (messageId : string) (reason : option string)
  | OpCancelDelayed (messageId : string)
  | OpRetryDeadLetter (now : Z) (messageId : string)
  | OpTick (now : Z)
  | OpClear.

Definition step (op : Op) (q : AdvancedQueue T) : AdvancedQueue T :=
  match op with
  | OpEnqueue now ts rnd d o => (enqueue now ts rnd d o q).2
  | OpPeek now => (peek now q).2
  | OpDequeue t_sweep t_start t_upd => (dequeue t_sweep t_start t_upd q).2
  | OpComplete now i => (complete now i q).2
  | OpFail t_upd t_retry t_sweep i reason => (fail t_upd t_retry t_sweep i reason q).2
  | OpCancelDelayed i => (cancelDelayed i q).2
  | OpRetryDeadLetter now i => (retryDeadLetter now i q).2
  | OpTick now => checkDelayedMessages now q
  | OpClear => clear q
  end.

Definition run (ops : list Op) (q : AdvancedQueue T) : AdvancedQueue T :=
  foldl (λ q op, step op q) q ops.
End Calls.

Arguments Op : clear implicits.

(** ** [src/core/advanced-topic-queue.ts] *)

Module Topic.
Section TopicEngine.
Context {T : Type}.

(** The queue with its broadcast channel.  [channel] is [None] when no
    channel could be created; otherwise it records the messages posted so
    far, oldest first, each as the copy [postMessage] takes of the object
    at that moment. *)
Record AdvancedTopicQueue : Type := mkTopicQueue {
  base : AdvancedQueue T;
  channel : option (list (Message T))
}.

Definition create (has_channel : bool) (o : QueueOptions) : AdvancedTopicQueue :=
  mkTopicQueue (new_queue o) (if has_channel then Some [] else None).

(** [enqueue(data, options)] of the topic queue: [super.enqueue], then
    [if (this.channel && !options.delay) this.channel.postMessage(message)]. *)
Definition enqueue (now : Z) (timestampPart randomPart : string)
    (d : T) (o : EnqueueOptions) (tq : AdvancedTopicQueue) : ref * AdvancedTopicQueue :=
  let '(message, q') := enqueue now timestampPart randomPart d o (base tq) in
  (message,
   mkTopicQueue q'
     (match channel tq with
      | Some posted =>
          if negb (truthy_number (opt_delay o))
          then Some (posted ++ option_list (heap q' !! message))
          else Some posted
      | None => None
      end)).

(** Every other method is inherited: it runs on the base queue and does not
    touch the channel. *)
Definition step (op : Op T) (tq : AdvancedTopicQueue) : AdvancedTopicQueue :=
  match op with
  | OpEnqueue now ts rnd d o => (enqueue now ts rnd d o tq).2
  | _ => mkTopicQueue (step op (base tq)) (channel tq)
  end.

Definition run (ops : list (Op T)) (tq : AdvancedTopicQueue) : AdvancedTopicQueue :=
  foldl (λ tq op, step op tq) tq ops.

(** The number of [postMessage] calls made so far. *)
Definition posts (tq : AdvancedTopicQueue) : nat :=
  from_option length 0%nat (channel tq).
End TopicEngine.

Arguments AdvancedTopicQueue : clear implicits.
End Topic.

(** * Vocabulary of the specification *)

Section Vocabulary.
Context {T : Type}.
Implicit Types (h : Heap T) (m : Message T) (l : list ref) (r : ref)
  (q : AdvancedQueue T).

(** The Ordering Policy in words: priority descending, then creation
    time ascending. *)
Definition ordering_policy (a b : Message T) : Prop :=
  priority b < priority a ∨ (priority a = priority b ∧ createdAt a ≤ createdAt b).

(** A reference is valid when an object was allocated at it. *)
Definition valid h r : Prop := is_Some (h !! r).

Definition ranks_before h : relation ref := λ a b, compare_refs h a b ≤ 0.

(** A store [h'] extends [h] when every object of [h] is still there
    with the fields that are never reassigned: [id], [priority] and
    [createdAt]. *)
Definition same_key m m' : Prop :=
  id m' = id m ∧ priority m' = priority m ∧ createdAt m' = createdAt m.

Definition heap_extends h h' : Prop :=
  ∀ r m, h !! r = Some m → ∃ m', h' !! r = Some m' ∧ same_key m m'.

(** What the sweep does to an elapsed message. *)
Definition promote (now : Z) m : Message T :=
  set_updatedAt now (set_status PENDING m).

(** The object behind [r] has a truthy [delayUntil] that is at most [now]. *)
Definition due h (now : Z) (r : ref) : Prop := at_ref h (λ m, elapsed now m) r.

#[global] Instance due_dec h now r : Decision (due h now r).
Proof. unfold due. apply _. Defined.

(** Some slot of the array [l] holds a message whose id is [i]. *)
Definition in_collection h (i : string) l : Prop :=
  ∃ r, r ∈ l ∧ at_ref h (has_id i) r.

(** The id [i] is present in the ready, the delayed or the dead-letter
    collection. *)
Definition present (i : string) q : Prop :=
  in_collection (heap q) i (messages q) ∨
  in_collection (heap q) i (delayedMessages q) ∨
  in_collection (heap q) i (deadLetterMessages q).

(** All slots of the three collections, in the order of the lookup. *)
Definition collections q : list ref :=
  messages q ++ delayedMessages q ++ deadLetterMessages q.

(** With [autoCheckDelayed], the sweep that [fail] runs at once promotes
    the message again when its new [delayUntil] is truthy and not after
    the reading [t_sweep]. *)
Definition swept_at_once (o : QueueOptions) (t_retry t_sweep : Z) : bool :=
  autoCheckDelayed o && negb (t_retry + retryDelay o =? 0)
  && bool_decide (t_retry + retryDelay o ≤ t_sweep).

(** What every reachable queue satisfies: the collections hold allocated
    objects, the ready and the delayed collection are sorted by the
    comparator, and no message has the empty string as its id. *)
Record invariant q : Prop := mkInvariant {
  inv_valid : Forall (valid (heap q)) (collections q);
  inv_sorted : StronglySorted (ranks_before (heap q)) (messages q);
  inv_sorted_delayed : StronglySorted (ranks_before (heap q)) (delayedMessages q);
  inv_ids : Forall (λ m, id m ≠ EmptyString) (heap q)
}.

(** The array [l] is ordered by the relation [R] on the messages its
    slots refer to. *)
Definition sorted_by h (R : relation (Message T)) l : Prop :=
  ∀ i j a b x y, (i < j)%nat → l !! i = Some a → l !! j = Some b →
    h !! a = Some x → h !! b = Some y → R x y.

(** [delayUntil] ascending, as far as both messages have one. *)
Definition delayUntil_ascending (x y : Message T) : Prop :=
  ∀ dx dy, delayUntil x = Some dx → delayUntil y = Some dy → dx ≤ dy.

(** The calls that post on the channel: the [enqueue] calls whose [delay]
    option is falsy. *)
Definition posting_call (op : Op T) : bool :=
  match op with
  | OpEnqueue _ _ _ _ o => negb (truthy_number (opt_delay o))
  | _ => false
  end.
(** The status [fail] leaves behind, as a function of the new attempt
    count alone. *)
Definition status_after_fail (o : QueueOptions) (t_retry t_sweep attempts : Z)
    : MessageStatus :=
  if bool_decide (attempts < maxRetries o)
  then (if swept_at_once o t_retry t_sweep then PENDING else DELAYED)
  else if deadLetterEnabled o then DEAD_LETTER else FAILED.

(** The ids that [generateUniqueId] draws during the calls [ops], started
    on [q], are unique: none of them is an id present at that moment. *)
Fixpoint fresh_ids (ops : list (Op T)) q : Prop :=
  match ops with
  | [] => True
  | op :: ops' =>
      match op with
      | OpEnqueue _ ts rnd _ eo =>
          truthy_string (opt_id eo) = false → ¬ present (generateUniqueId ts rnd) q
      | _ => True
      end ∧ fresh_ids ops' (step op q)
  end.

End Vocabulary.

(** * Concrete queues *)

(** The queues on which the statements below are exercised; the payloads
    are strings. *)

Definition with_id (i : string) : EnqueueOptions :=
  {| opt_priority := None; opt_delay := None; opt_id := Some i |}.

Definition with_id_delay (i : string) (delay : Z) : EnqueueOptions :=
  {| opt_priority := None; opt_delay := Some delay; opt_id := Some i |}.

Definition with_priority (p : Z) : EnqueueOptions :=
  {| opt_priority := Some p; opt_delay := None; opt_id := None |}.

Definition with_delay (delay : Z) : EnqueueOptions :=
  {| opt_priority := None; opt_delay := Some delay; opt_id := None |}.

(** [{ retryDelay: 0, autoCheckDelayed: true }] *)
Definition eager_retry_options : QueueOptions :=
  mkQueueOptions 3 0 false "memory" 5000 true true 100.

(** [{ maxRetries: 1, deadLetterEnabled: false }] *)
Definition parking_options : QueueOptions :=
  mkQueueOptions 1 1000 false "memory" 5000 false false 100.

(** One message ["a"], enqueued without delay and never dequeued. *)
Definition one_ready (o : QueueOptions) : AdvancedQueue string :=
  run [OpEnqueue 0 "t" "r" "job" (with_id "a")] (new_queue o).

(** One message ["a"], enqueued with a delay of one second. *)
Definition one_delayed (o : QueueOptions) : AdvancedQueue string :=
  run [OpEnqueue 0 "t" "r" "job" (with_id_delay "a" 1000)] (new_queue o).

(** One message ["a"], dequeued and completed. *)
Definition one_completed (o : QueueOptions) : AdvancedQueue string :=
  run [OpEnqueue 0 "t" "r" "job" (with_id "a"); OpDequeue 1 1 1; OpComplete 2 "a"]
    (new_queue o).

(** One message ["a"] that failed three times under the default options. *)
Definition one_dead : AdvancedQueue string :=
  run [OpEnqueue 0 "t" "r" "job" (with_id "a");
       OpFail 1 1 1 "a" (Some "first"); OpFail 2 2 2 "a" (Some "second");
       OpFail 3 3 3 "a" (Some "third")]
    (new_queue DEFAULT_QUEUE_OPTIONS).

(** A delay of one second enqueued at time 0, then a delay of ten
    milliseconds enqueued at time 1. *)
Definition two_delayed : AdvancedQueue string :=
  run [OpEnqueue 0 "t" "r1" "slow" (with_delay 1000);
       OpEnqueue 1 "t" "r2" "fast" (with_delay 10)]
    (new_queue DEFAULT_QUEUE_OPTIONS).

(** The status, and the [delayUntil], of the object behind a reference. *)
Definition status_of {T} (q : AdvancedQueue T) (r : ref) : option MessageStatus :=
  status <$> heap q !! r.

Definition delayUntil_of {T} (q : AdvancedQueue T) (r : ref) : option Z :=
  heap q !! r ≫= delayUntil.


(** A topic queue with a channel on which the same id is enqueued twice. *)
Definition twice_same_id : Topic.AdvancedTopicQueue string :=
  Topic.run [OpEnqueue 0 "t" "r" "job" (with_id "a");
             OpEnqueue 1 "t" "r" "job" (with_id "a")]
    (Topic.create true DEFAULT_QUEUE_OPTIONS).

(** A message that failed once more after it was dead-lettered, and was
    then retried. *)
Definition dead_twice_retried : AdvancedQueue string :=
  run [OpFail 4 4 4 "a" (Some "fourth"); OpRetryDeadLetter 5 "a"] one_dead.

(** A message that is dequeued, fails once and so waits for its retry
    (until time 1002), and is then completed. *)
Definition completed_after_fail : AdvancedQueue string :=
  run [OpEnqueue 0 "t" "r" "job" (with_id "a"); OpDequeue 1 1 1;
       OpFail 2 2 2 "a" (Some "first"); OpComplete 3 "a"]
    (new_queue DEFAULT_QUEUE_OPTIONS).

(** A message enqueued with a delay of one second and completed before
    the delay has elapsed. *)
Definition completed_while_delayed : AdvancedQueue string :=
  run [OpComplete 2 "a"] (one_delayed DEFAULT_QUEUE_OPTIONS).

(** A message enqueued with a delay of one second that fails with
    [maxRetries = 1] and dead-lettering disabled. *)
Definition parked_while_delayed : AdvancedQueue string :=
  run [OpFail 1 1 1 "a" None] (one_delayed parking_options).

(** A message enqueued with a delay of one second that fails once under
    the default options. *)
Definition delayed_failed : AdvancedQueue string :=
  run [OpFail 1 1 1 "a" None] (one_delayed DEFAULT_QUEUE_OPTIONS).

(** A dead-lettered message that fails once more. *)
Definition dead_twice : AdvancedQueue string :=
  run [OpFail 4 4 4 "a" (Some "fourth")] one_dead.

(** A topic queue with a channel on which an id is enqueued with a delay
    and then again without one. *)
Definition delayed_then_plain : Topic.AdvancedTopicQueue string :=
  Topic.run [OpEnqueue 0 "t" "r" "job" (with_id_delay "a" 1000);
             OpEnqueue 1 "t" "r" "job" (with_id "a")]
    (Topic.create true DEFAULT_QUEUE_OPTIONS).


(** * The rest of the code *)

(** ** The class [Queue]: the plain FIFO queue *)

Module Queue.
Section BasicQueue.
Context {T : Type}.

Record Queue : Type := Build { items : list T }.

(** [new Queue()] *)
Definition create : Queue := {| items := [] |}.

(** [this.items.push(item)] *)
Definition enqueue (item : T) (q : Queue) : Queue :=
  {| items := Array_push (items q) item |}.

(** [this.items.shift()]: nothing, and no change, on an empty array. *)
Definition dequeue (q : Queue) : option T * Queue :=
  match items q with
  | [] => (None, q)
  | x :: rest => (Some x, {| items := rest |})
  end.

(** [this.items[0]] *)
Definition peek (q : Queue) : option T := items q !! 0%nat.

Definition size (q : Queue) : nat := length (items q).

Definition isEmpty (q : Queue) : bool := bool_decide (length (items q) = 0%nat).

Definition clear (q : Queue) : Queue := {| items := [] |}.

(** [[...this.items]] *)
Definition toArray (q : Queue) : list T := items q.
End BasicQueue.

Arguments Queue : clear implicits.
End Queue.

(** ** The class [TopicQueue]: the FIFO queue with a broadcast channel *)

Module TopicQueue.
Section BasicTopicQueue.
Context {T : Type}.

(** [channel] is [None] when there is no channel (none could be created,
    or it was closed); otherwise it records the items posted so far. *)
Record TopicQueue : Type := Build {
  queue : Queue.Queue T;
  channel : option (list T)
}.

Definition create (has_channel : bool) : TopicQueue :=
  {| queue := Queue.create; channel := if has_channel then Some [] else None |}.

(** [super.enqueue(item); if (this.channel) this.channel.postMessage(item)] *)
Definition enqueue (item : T) (tq : TopicQueue) : TopicQueue :=
  {| queue := Queue.enqueue item (queue tq);
     channel := match channel tq with
                | Some posted => Some (Array_push posted item)
                | None => None
                end |}.

(** [dequeue] is inherited from [Queue]. *)
Definition dequeue (tq : TopicQueue) : option T * TopicQueue :=
  let '(x, q') := Queue.dequeue (queue tq) in
  (x, {| queue := q'; channel := channel tq |}).

(** [this.channel?.close(); this.channel = null]: the items stay. *)
Definition close (tq : TopicQueue) : TopicQueue :=
  {| queue := queue tq; channel := None |}.
End BasicTopicQueue.

Arguments TopicQueue : clear implicits.
End TopicQueue.

(** ** More of [src/core/advanced-queue.ts] and [advanced-topic-queue.ts] *)

Section MoreEngine.
Context {T : Type}.
Implicit Types (h : Heap T) (m : Message T) (l : list ref) (r : ref)
  (q : AdvancedQueue T).

(** [isEmpty()]: [this.size() === 0] *)
Definition isEmpty q : bool := bool_decide (size q = 0%nat).

(** [dispose()]: the timers are not modelled; what is left empties the
    collections and the processing set. *)
Definition dispose q : AdvancedQueue T :=
  mkQueue (heap q) [] [] [] (options q) ∅.

(** [close()] of the topic queue: the channel is closed and dropped, then
    [super.dispose()]. *)
Definition topic_close (tq : Topic.AdvancedTopicQueue T) : Topic.AdvancedTopicQueue T :=
  Topic.mkTopicQueue (dispose (Topic.base tq)) None.

(** *** Vocabulary *)

(** The fields no call assigns after the message was created. *)
Definition frozen_fields m m' : Prop :=
  id m' = id m ∧ data m' = data m ∧
  priority m' = priority m ∧ createdAt m' = createdAt m.

(** Every object of [h] is still in [h'], related by [R]. *)
Definition heap_related (R : relation (Message T)) h h' : Prop :=
  ∀ r m, h !! r = Some m → ∃ m', h' !! r = Some m' ∧ R m m'.

(** The calls other than [retryDeadLetter]. *)
Definition keeps_attempts (op : Op T) : bool :=
  match op with
  | OpRetryDeadLetter _ _ => false
  | _ => true
  end.

(** The calls that neither add nor drop a slot of a collection. *)
Definition keeps_slots (op : Op T) : bool :=
  match op with
  | OpPeek _ | OpDequeue _ _ _ | OpComplete _ _ | OpRetryDeadLetter _ _ | OpTick _ => true
  | _ => false
  end.
End MoreEngine.

Section QueueVocabulary.
Context {T : Type}.

(** [n] calls of [dequeue] in a row, with the items they returned. *)
Fixpoint dequeue_n (n : nat) (q : Queue.Queue T) : list T * Queue.Queue T :=
  match n with
  | O => ([], q)
  | S n' =>
      match Queue.dequeue q with
      | (Some x, q') => let '(xs, q'') := dequeue_n n' q' in (x :: xs, q'')
      | (None, q') => dequeue_n n' q'
      end
  end.

(** One [enqueue] per item of [xs], in order. *)
Definition enqueue_all (xs : list T) (q : Queue.Queue T) : Queue.Queue T :=
  foldl (λ q x, Queue.enqueue x q) q xs.

Definition topic_enqueue_all (xs : list T) (tq : TopicQueue.TopicQueue T)
    : TopicQueue.TopicQueue T :=
  foldl (λ tq x, TopicQueue.enqueue x tq) tq xs.
End QueueVocabulary.

(** The character of the separator ["-"]. *)
Definition dash : Ascii.ascii := Ascii.ascii_of_nat 45.

(** A timestamp or random part as [toString(36)] prints it has no dash. *)
Fixpoint dash_free (s : string) : bool :=
  match s with
  | EmptyString => true
  | String c s' => negb (Ascii.eqb c dash) && dash_free s'
  end.
(** * Properties *)

(** ** Arrays *)

Section JSArrayFacts.
Context {A : Type} (cmp : A → A → Z).

Lemma sort_insert_perm x l : sort_insert cmp x l ≡ₚ x :: l.
Proof.
  induction l as [|y l IH]; simpl; [done|].
  destruct (cmp x y <=? 0); [done|].
  rewrite IH. apply Permutation_swap.
Qed.

Lemma Array_sort_perm l : Array_sort cmp l ≡ₚ l.
Proof.
  induction l as [|x l IH]; simpl; [done|].
  rewrite sort_insert_perm. by rewrite IH.
Qed.

Lemma Array_sort_elem_of x l : x ∈ Array_sort cmp l ↔ x ∈ l.
Proof. by rewrite Array_sort_perm. Qed.

Lemma Array_sort_length l : length (Array_sort cmp l) = length l.
Proof. by rewrite Array_sort_perm. Qed.

(** Sortedness needs the comparator to be a total preorder on the
    elements that actually occur, here those satisfying [V]. *)
Context (V : A → Prop).
Hypothesis cmp_total : ∀ a b, V a → V b → cmp a b ≤ 0 ∨ cmp b a ≤ 0.
Hypothesis cmp_trans :
  ∀ a b c, V a → V b → V c → cmp a b ≤ 0 → cmp b c ≤ 0 → cmp a c ≤ 0.

Lemma sort_insert_sorted x l :
  V x → Forall V l →
  StronglySorted (λ a b, cmp a b ≤ 0) l →
  StronglySorted (λ a b, cmp a b ≤ 0) (sort_insert cmp x l).
Proof.
  intros Hx Hl Hs. induction Hs as [|y l Hs IH Hy]; simpl.
  { repeat constructor. }
  apply Forall_cons in Hl as [HVy HVl].
  destruct (Z.leb_spec (cmp x y) 0) as [Hle|Hgt].
  - constructor; [by constructor|]. constructor; [done|].
    rewrite Forall_forall in Hy, HVl |- *. intros z Hz. eauto.
  - constructor; [by apply IH|].
    rewrite sort_insert_perm. constructor; [|done].
    destruct (cmp_total x y Hx HVy); [lia|done].
Qed.

Lemma Array_sort_sorted l :
  Forall V l → StronglySorted (λ a b, cmp a b ≤ 0) (Array_sort cmp l).
Proof.
  induction 1 as [|x l Hx Hl IH]; simpl; [constructor|].
  apply sort_insert_sorted; [done| |done].
  by rewrite Array_sort_perm.
Qed.
End JSArrayFacts.

(** ** The object store and the ordering policy *)

Section StoreFacts.
Context {T : Type}.
Implicit Types (h : Heap T) (m : Message T) (l : list ref) (r : ref).

Lemma at_ref_Some h (P : Message T → Prop) r :
  at_ref h P r ↔ ∃ m, h !! r = Some m ∧ P m.
Proof.
  unfold at_ref. destruct (h !! r) as [m|]; simpl; [|by split; [|intros (? & ? & ?)]].
  split; [eauto|]. intros (x & Hx & ?). by simplify_eq.
Qed.

Lemma Array_find_Some (P : Message T → Prop) `{∀ m, Decision (P m)} h l index r m :
  Array_find P h l = Some (index, r, m) ↔
    l !! index = Some r ∧ h !! r = Some m ∧ P m ∧
    ∀ j r', l !! j = Some r' → (j < index)%nat → ¬ at_ref h P r'.
Proof.
  unfold Array_find. split.
  - destruct (list_find (at_ref h P) l) as [[i' r']|] eqn:Hf; simpl; [|done].
    destruct (h !! r') as [m'|] eqn:Hr; simpl; [|done].
    intros [= -> -> ->]. apply list_find_Some in Hf as (Hl & HP & Hmin).
    apply at_ref_Some in HP as (? & Hr' & HP). rewrite Hr in Hr'.
    injection Hr' as <-. eauto.
  - intros (Hl & Hr & HP & Hmin).
    assert (list_find (at_ref h P) l = Some (index, r)) as ->.
    { apply list_find_Some. split_and!; [done| |done].
      apply at_ref_Some. eauto. }
    simpl. by rewrite Hr.
Qed.

Lemma Array_find_None (P : Message T → Prop) `{∀ m, Decision (P m)} h l :
  Array_find P h l = None ↔ Forall (λ r, ¬ at_ref h P r) l.
Proof.
  rewrite <- list_find_None. unfold Array_find. split.
  - destruct (list_find _ l) as [[i' r']|] eqn:Hf; simpl; [|done].
    apply list_find_Some in Hf as (_ & HP & _).
    apply at_ref_Some in HP as (m & -> & _). done.
  - by intros ->.
Qed.

Lemma Array_find_elem_of (P : Message T → Prop) `{∀ m, Decision (P m)} h l index r m :
  Array_find P h l = Some (index, r, m) → r ∈ l ∧ h !! r = Some m ∧ P m.
Proof.
  intros (Hl & Hr & HP & _)%Array_find_Some.
  split; [|done]. by eapply list_elem_of_lookup_2.
Qed.

Lemma Array_find_is_Some (P : Message T → Prop) `{∀ m, Decision (P m)} h l :
  is_Some (Array_find P h l) ↔ ∃ r, r ∈ l ∧ at_ref h P r.
Proof.
  split.
  - intros [[[i r] m] (Hl & Hr & HP)%Array_find_elem_of].
    exists r. split; [done|]. apply at_ref_Some; eauto.
  - intros (r & Hl & HP). apply not_eq_None_Some. intros Hn%Array_find_None.
    rewrite Forall_forall in Hn. by eapply Hn.
Qed.

Lemma sortByPriorityAndTime_le (a b : Message T) :
  sortByPriorityAndTime a b ≤ 0 ↔ ordering_policy a b.
Proof.
  unfold sortByPriorityAndTime, ordering_policy. case_decide; lia.
Qed.

Lemma ranks_before_policy h a b x y :
  h !! a = Some x → h !! b = Some y →
  ranks_before h a b ↔ ordering_policy x y.
Proof.
  intros Ha Hb. unfold ranks_before, compare_refs. rewrite Ha, Hb.
  apply sortByPriorityAndTime_le.
Qed.

Lemma compare_refs_total h a b :
  valid h a → valid h b → compare_refs h a b ≤ 0 ∨ compare_refs h b a ≤ 0.
Proof.
  intros [x Hx] [y Hy]. unfold compare_refs. rewrite Hx, Hy.
  rewrite !sortByPriorityAndTime_le. unfold ordering_policy. lia.
Qed.

Lemma compare_refs_trans h a b c :
  valid h a → valid h b → valid h c →
  compare_refs h a b ≤ 0 → compare_refs h b c ≤ 0 → compare_refs h a c ≤ 0.
Proof.
  intros [x Hx] [y Hy] [z Hz]. unfold compare_refs. rewrite Hx, Hy, Hz.
  rewrite !sortByPriorityAndTime_le. unfold ordering_policy. lia.
Qed.

Lemma Array_sort_refs_sorted h l :
  Forall (valid h) l →
  StronglySorted (ranks_before h) (Array_sort (compare_refs h) l).
Proof.
  apply (Array_sort_sorted (compare_refs h) (valid h)).
  - apply compare_refs_total.
  - apply compare_refs_trans.
Qed.


Lemma heap_extends_trans h1 h2 h3 :
  heap_extends h1 h2 → heap_extends h2 h3 → heap_extends h1 h3.
Proof.
  intros H12 H23 r m Hr.
  destruct (H12 r m Hr) as (m2 & Hr2 & ? & ? & ?).
  destruct (H23 r m2 Hr2) as (m3 & Hr3 & ? & ? & ?).
  exists m3. unfold same_key. split; [done|]. split_and!; congruence.
Qed.

Lemma heap_extends_insert h r m m' :
  h !! r = Some m → same_key m m' → heap_extends h (<[r := m']> h).
Proof.
  intros Hr Hk r' x Hx. destruct (decide (r' = r)) as [->|Hne].
  - exists m'. rewrite list_lookup_insert_eq by by eapply lookup_lt_Some.
    by simplify_eq.
  - exists x. rewrite list_lookup_insert_ne by done. by repeat split.
Qed.

Lemma heap_extends_app h h2 : heap_extends h (h ++ h2).
Proof.
  intros r m Hr. exists m. split; [by apply lookup_app_l_Some|by repeat split].
Qed.

Lemma heap_extends_valid h h' r : heap_extends h h' → valid h r → valid h' r.
Proof. intros He [m Hm]. destruct (He r m Hm) as (m' & ? & _). by exists m'. Qed.

Lemma heap_extends_compare h h' a b :
  heap_extends h h' → valid h a → valid h b →
  compare_refs h' a b = compare_refs h a b.
Proof.
  intros He [x Hx] [y Hy].
  destruct (He a x Hx) as (x' & Hx' & _ & Hp1 & Hc1).
  destruct (He b y Hy) as (y' & Hy' & _ & Hp2 & Hc2).
  unfold compare_refs, sortByPriorityAndTime.
  rewrite Hx, Hy, Hx', Hy', Hp1, Hp2, Hc1, Hc2. done.
Qed.

Lemma heap_extends_has_id h h' i r :
  heap_extends h h' → valid h r →
  at_ref h' (has_id i) r ↔ at_ref h (has_id i) r.
Proof.
  intros He [x Hx]. destruct (He r x Hx) as (x' & Hx' & Hi & _).
  unfold at_ref, has_id. rewrite Hx, Hx'. simpl. by rewrite Hi.
Qed.

Lemma heap_extends_sorted h h' l :
  heap_extends h h' → Forall (valid h) l →
  StronglySorted (ranks_before h) l → StronglySorted (ranks_before h') l.
Proof.
  intros He Hv Hs. induction Hs as [|a l Hs IH Ha]; [constructor|].
  apply Forall_cons in Hv as [Hva Hvl]. constructor; [by apply IH|].
  rewrite Forall_forall in Ha, Hvl |- *. intros b Hb.
  unfold ranks_before. rewrite (heap_extends_compare h h') by eauto.
  by apply Ha.
Qed.
End StoreFacts.

(** ** The delay scheduler *)

Section SweepFacts.
Context {T : Type}.
Implicit Types (h : Heap T) (m : Message T) (l : list ref) (r : ref)
  (q : AdvancedQueue T).

Lemma due_insert_promote h now r m x :
  h !! r = Some m → due (<[r := promote now m]> h) now x ↔ due h now x.
Proof.
  intros Hr. unfold due, at_ref. destruct (decide (x = r)) as [->|Hne].
  - rewrite list_lookup_insert_eq by by eapply lookup_lt_Some.
    by rewrite Hr.
  - by rewrite list_lookup_insert_ne.
Qed.

Lemma sweep_spec now l : ∀ h readyMessages stillDelayed,
  ∃ h',
    sweep now l h readyMessages stillDelayed =
      (h', readyMessages ++ filter (due h now) l,
           stillDelayed ++ filter (λ r, ¬ due h now r) l) ∧
    ∀ r, h' !! r =
         if decide (r ∈ l ∧ due h now r) then promote now <$> h !! r else h !! r.
Proof.
  induction l as [|r l IH]; intros h rd st; cbn [sweep].
  { exists h. rewrite !filter_nil, !app_nil_r. split; [done|].
    intros r. case_decide as Hd; [|done]. destruct Hd as [Hd _]. by apply elem_of_nil in Hd. }
  destruct (h !! r) as [m|] eqn:Hr; [destruct (elapsed now m) eqn:He|].
  - destruct (IH (<[r := set_updatedAt now (set_status PENDING m)]> h)
                (Array_push rd r) st) as (h' & -> & Hh').
    assert (due h now r) as Hdue.
    { unfold due, at_ref. rewrite Hr. simpl. by rewrite He. }
    exists h'. split.
    + rewrite filter_cons_True by done.
      rewrite (filter_cons_False (λ r, ¬ due h now r)) by (intros Hn; by apply Hn).
      unfold Array_push. rewrite <- app_assoc. simpl.
      rewrite (list_filter_iff (due (<[r := promote now m]> h) now) (due h now))
        by (intros x; by apply (due_insert_promote h now r m)).
      rewrite (list_filter_iff (λ x, ¬ due (<[r := promote now m]> h) now x)
                 (λ x, ¬ due h now x))
        by (intros x; by rewrite (due_insert_promote h now r m)).
      done.
    + intros x. rewrite Hh'. destruct (decide (x = r)) as [->|Hne].
      * rewrite list_lookup_insert_eq by by eapply lookup_lt_Some.
        rewrite Hr.
        rewrite (decide_True (P := r ∈ r :: l ∧ due h now r))
          by (split; [left|done]).
        by case_decide.
      * rewrite list_lookup_insert_ne by done.
        apply decide_ext. rewrite (due_insert_promote h now r m) by done.
        rewrite elem_of_cons. split; [intros [? ?]; by split; [right|]|].
        intros [[->|?] ?]; done.
  - destruct (IH h rd (Array_push st r)) as (h' & -> & Hh').
    assert (¬ due h now r) as Hdue.
    { unfold due, at_ref. rewrite Hr. simpl. rewrite He. intros []. }
    exists h'. split.
    + rewrite filter_cons_False by done. rewrite filter_cons_True by done.
      unfold Array_push. by rewrite <- app_assoc.
    + intros x. rewrite Hh'. apply decide_ext. rewrite elem_of_cons.
      split; [intros [? ?]; by split; [right|]|].
      intros [[->|?] ?]; [by destruct Hdue|done].
  - destruct (IH h rd (Array_push st r)) as (h' & -> & Hh').
    assert (¬ due h now r) as Hdue.
    { unfold due, at_ref. rewrite Hr. intros []. }
    exists h'. split.
    + rewrite filter_cons_False by done. rewrite filter_cons_True by done.
      unfold Array_push. by rewrite <- app_assoc.
    + intros x. rewrite Hh'. apply decide_ext. rewrite elem_of_cons.
      split; [intros [? ?]; by split; [right|]|].
      intros [[->|?] ?]; [by destruct Hdue|done].
Qed.

(** [checkDelayedMessages] in one equation: the elapsed messages leave
    the delayed collection, are stamped Pending and join the ready
    collection, which is then sorted again. *)
Lemma checkDelayedMessages_spec now q :
  ∃ h',
    checkDelayedMessages now q =
      mkQueue h'
        (match filter (due (heap q) now) (delayedMessages q) with
         | [] => messages q
         | _ :: _ =>
             Array_sort (compare_refs h')
               (messages q ++ filter (due (heap q) now) (delayedMessages q))
         end)
        (filter (λ r, ¬ due (heap q) now r) (delayedMessages q))
        (deadLetterMessages q) (options q) (processingMessages q) ∧
    ∀ r, h' !! r =
         if decide (r ∈ delayedMessages q ∧ due (heap q) now r)
         then promote now <$> heap q !! r else heap q !! r.
Proof.
  unfold checkDelayedMessages.
  destruct (sweep_spec now (delayedMessages q) (heap q) [] []) as (h' & -> & Hh').
  exists h'. simpl. done.
Qed.

Lemma checkDelayedMessages_extends now q :
  heap_extends (heap q) (heap (checkDelayedMessages now q)).
Proof.
  destruct (checkDelayedMessages_spec now q) as (h' & -> & Hh'). simpl.
  intros r m Hr. rewrite Hh', Hr. case_decide; eexists; (split; [done|]);
    by repeat split.
Qed.

Lemma checkDelayedMessages_elem_of now q r :
  r ∈ messages (checkDelayedMessages now q) ↔
    r ∈ messages q ∨ (r ∈ delayedMessages q ∧ due (heap q) now r).
Proof.
  destruct (checkDelayedMessages_spec now q) as (h' & -> & _). simpl.
  destruct (filter _ (delayedMessages q)) as [|x l] eqn:Hf.
  - split; [by left|]. intros [?|[Hin Hd]]; [done|].
    by destruct (filter_nil_not_elem_of _ _ r Hf Hd).
  - rewrite Array_sort_elem_of, elem_of_app, <- Hf, list_elem_of_filter.
    tauto.
Qed.
End SweepFacts.

(** ** Looking a message up by its id *)

Section LookupFacts.
Context {T : Type}.
Implicit Types (h : Heap T) (m : Message T) (l : list ref) (r : ref)
  (q : AdvancedQueue T).

Lemma Array_find_in_collection h i l :
  is_Some (Array_find (has_id i) h l) ↔ in_collection h i l.
Proof. apply Array_find_is_Some. Qed.


Lemma findMessageById_Some i q r m :
  findMessageById i q = Some (r, m) →
  r ∈ collections q ∧ heap q !! r = Some m ∧ id m = i.
Proof.
  unfold findMessageById, collections. rewrite !elem_of_app.
  destruct (Array_find _ _ (messages q)) as [[[? ?] ?]|] eqn:H1.
  { intros [= -> ->]. apply Array_find_elem_of in H1 as (? & ? & ?). auto. }
  destruct (Array_find _ _ (delayedMessages q)) as [[[? ?] ?]|] eqn:H2.
  { intros [= -> ->]. apply Array_find_elem_of in H2 as (? & ? & ?). auto. }
  destruct (Array_find _ _ (deadLetterMessages q)) as [[[? ?] ?]|] eqn:H3.
  { intros [= -> ->]. apply Array_find_elem_of in H3 as (? & ? & ?). auto. }
  done.
Qed.

Lemma findMessageById_None i q : findMessageById i q = None ↔ ¬ present i q.
Proof.
  unfold findMessageById, present.
  rewrite <- !Array_find_in_collection.
  destruct (Array_find _ _ (messages q)) as [[[? ?] ?]|];
    [split; [done|intros []; eauto]|].
  destruct (Array_find _ _ (delayedMessages q)) as [[[? ?] ?]|];
    [split; [done|intros []; eauto]|].
  destruct (Array_find _ _ (deadLetterMessages q)) as [[[? ?] ?]|];
    [split; [done|intros []; eauto]|].
  split; [|done]. intros _ [[? [=]]|[[? [=]]|[? [=]]]].
Qed.

Lemma findMessageById_present i q : is_Some (findMessageById i q) ↔ present i q.
Proof.
  destruct (findMessageById i q) as [p|] eqn:Hf.
  - split; [|by eauto]. intros _.
    destruct p as [r m]. apply findMessageById_Some in Hf as (Hin & Hr & Hi).
    unfold collections in Hin. rewrite !elem_of_app in Hin. unfold present.
    destruct Hin as [?|[?|?]]; [left|right; left|right; right];
      exists r; (split; [done|]); apply at_ref_Some; eauto.
  - split; [by intros [? [=]]|]. intros Hp.
    apply findMessageById_None in Hf. by destruct Hf.
Qed.

Lemma findMessageById_valid i q r m :
  findMessageById i q = Some (r, m) → (r < length (heap q))%nat.
Proof. intros (_ & Hr & _)%findMessageById_Some. by eapply lookup_lt_Some. Qed.

Lemma in_collection_elem_of h i l r m :
  r ∈ l → h !! r = Some m → id m = i → in_collection h i l.
Proof. intros ? Hr ?. exists r. split; [done|]. apply at_ref_Some. eauto. Qed.

Lemma filter_out_id_elem_of h i l r :
  r ∈ filter_out_id h i l ↔ r ∈ l ∧ ¬ at_ref h (has_id i) r.
Proof. unfold filter_out_id. rewrite list_elem_of_filter. tauto. Qed.

Lemma filter_out_id_not_in_collection h i l :
  ¬ in_collection h i (filter_out_id h i l).
Proof. intros (r & [? Hn]%filter_out_id_elem_of & ?). by apply Hn. Qed.
End LookupFacts.

(** ** The retry / dead-letter transition *)

Section FailFacts.
Context {T : Type}.
Implicit Types (h : Heap T) (m : Message T) (l : list ref) (r : ref)
  (q : AdvancedQueue T).

Lemma fail_not_found t_upd t_retry t_sweep i reason q :
  findMessageById i q = None →
  fail t_upd t_retry t_sweep i reason q = (false, q).
Proof. intros Hf. unfold fail. by rewrite Hf. Qed.

Lemma fail_found t_upd t_retry t_sweep i reason q r m :
  findMessageById i q = Some (r, m) →
  ∃ q' m',
    fail t_upd t_retry t_sweep i reason q = (true, q') ∧
    heap q' !! r = Some m' ∧
    same_key m m' ∧
    processingAttempts m' = processingAttempts m + 1 ∧
    failureReason m' = reason ∧
    (processingAttempts m + 1 < maxRetries (options q) →
       delayUntil m' = Some (t_retry + retryDelay (options q)) ∧
       if swept_at_once (options q) t_retry t_sweep
       then status m' = PENDING ∧ r ∈ messages q' ∧ r ∉ delayedMessages q'
       else status m' = DELAYED ∧ r ∈ delayedMessages q' ∧ r ∉ messages q') ∧
    (maxRetries (options q) ≤ processingAttempts m + 1 →
       deadLetterEnabled (options q) = true →
       status m' = DEAD_LETTER ∧
       deadLetterMessages q' = deadLetterMessages q ++ [r] ∧
       ¬ in_collection (heap q') i (messages q') ∧
       ¬ in_collection (heap q') i (delayedMessages q')) ∧
    (maxRetries (options q) ≤ processingAttempts m + 1 →
       deadLetterEnabled (options q) = false →
       status m' = FAILED ∧
       messages q' = messages q ∧
       delayedMessages q' = delayedMessages q ∧
       deadLetterMessages q' = deadLetterMessages q).
Proof.
  intros Hf. pose proof (findMessageById_valid _ _ _ _ Hf) as Hlt.
  apply findMessageById_Some in Hf as Hfs. destruct Hfs as (Hin & Hr & Hi).
  unfold fail. rewrite Hf. cbn [processingAttempts set_processingAttempts].
  case_bool_decide as Hretry.
  - (* retry *)
    set (m2 := set_delayUntil _ _).
    set (h := <[r := m2]> (heap q)).
    set (q1 := mkQueue h _ _ _ _ _).
    assert (h !! r = Some m2) as Hr2 by by apply list_lookup_insert_eq.
    assert (at_ref h (has_id i) r) as Hid by (apply at_ref_Some; eauto).
    assert (r ∈ delayedMessages q1) as Hin1.
    { simpl. apply Array_sort_elem_of. unfold Array_push.
      apply elem_of_app. right. by left. }
    assert (r ∉ messages q1) as Hout1.
    { simpl. intros [_ Hn]%filter_out_id_elem_of. by apply Hn. }
    assert (due h t_sweep r ↔
            (negb (t_retry + retryDelay (options q) =? 0)
             && bool_decide (t_retry + retryDelay (options q) ≤ t_sweep))) as Hdue.
    { unfold due, at_ref. rewrite Hr2. done. }
    unfold swept_at_once. destruct (autoCheckDelayed (options q)); cbn [andb].
    + destruct (checkDelayedMessages_spec t_sweep q1) as (h' & Heq & Hh').
      pose proof (checkDelayedMessages_elem_of t_sweep q1 r) as Hel.
      rewrite Heq in Hel |- *. simpl in Hel. cbn [heap delayedMessages messages].
      specialize (Hh' r). simpl in Hh'. fold h in Hh'. rewrite Hr2 in Hh'.
      destruct (negb _ && bool_decide _) eqn:Hb.
      * assert (due h t_sweep r) as Hd by by apply Hdue.
        rewrite decide_True in Hh' by done.
        eexists _, _. split; [done|]. split; [exact Hh'|].
        split_and!; try done; try (intros; lia).
        intros _. split_and!; try done.
        -- apply Hel. by right.
        -- intros [Hn _]%list_elem_of_filter. by apply Hn.
      * assert (¬ due h t_sweep r) as Hd by (rewrite Hdue; intros []).
        rewrite decide_False in Hh' by (intros [_ ?]; done).
        eexists _, _. split; [done|]. split; [exact Hh'|].
        split_and!; try done; try (intros; lia).
        intros _. split_and!; try done.
        -- by apply list_elem_of_filter.
        -- intros [?|[_ ?]]%Hel; done.
    + eexists _, _. split; [done|]. split; [exact Hr2|].
      split_and!; try done; intros; lia.
  - destruct (deadLetterEnabled (options q)) eqn:Hdl.
    + eexists _, _. split; [done|]. cbn [heap].
      split; [by apply list_lookup_insert_eq|].
      split_and!; try done; try lia.
      intros _ _. split_and!; try done.
      * apply filter_out_id_not_in_collection.
      * apply filter_out_id_not_in_collection.
    + eexists _, _. split; [done|]. cbn [heap].
      split; [by apply list_lookup_insert_eq|].
      split_and!; try done; lia.
Qed.
End FailFacts.

(** ** The invariant of reachable queues *)

Section InvariantFacts.
Context {T : Type}.
Implicit Types (h : Heap T) (m : Message T) (l : list ref) (r : ref)
  (q : AdvancedQueue T).

Lemma Forall_valid_extends h h' l :
  heap_extends h h' → Forall (valid h) l → Forall (valid h') l.
Proof.
  intros He Hl. eapply Forall_impl; [exact Hl|].
  intros r. by apply heap_extends_valid.
Qed.

Lemma Forall_filter_sub {A} (P Q : A → Prop) `{∀ x, Decision (Q x)} (l : list A) :
  Forall P l → Forall P (filter Q l).
Proof.
  rewrite !Forall_forall. intros Hl x [_ Hx]%list_elem_of_filter. by apply Hl.
Qed.

Lemma StronglySorted_filter {A} (R : relation A) (P : A → Prop)
    `{∀ x, Decision (P x)} (l : list A) :
  StronglySorted R l → StronglySorted R (filter P l).
Proof.
  induction 1 as [|x l Hs IH Hx]; [constructor|].
  rewrite filter_cons. case_decide; [|done].
  constructor; [done|]. rewrite Forall_forall in Hx |- *.
  intros y [_ Hy]%list_elem_of_filter. by apply Hx.
Qed.

Lemma StronglySorted_delete {A} (R : relation A) (l : list A) i :
  StronglySorted R l → StronglySorted R (delete i l).
Proof.
  intros Hs. revert i. induction Hs as [|x l Hs IH Hx]; intros [|i]; simpl;
    [constructor..|done|].
  constructor; [by apply IH|]. by apply Forall_delete.
Qed.


Lemma StronglySorted_head {A} (R : relation A) (l : list A) i j x y :
  StronglySorted R l → l !! i = Some x → l !! j = Some y → (i < j)%nat → R x y.
Proof.
  intros Hs. revert i j. induction Hs as [|a l Hs IH Ha]; intros i j Hi Hj Hlt.
  { by rewrite lookup_nil in Hi. }
  destruct j as [|j]; [lia|]. destruct i as [|i]; simpl in *.
  - injection Hi as ->. rewrite Forall_forall in Ha. apply Ha.
    by eapply list_elem_of_lookup_2.
  - eapply IH; [done..|lia].
Qed.

Lemma Forall_ids_insert h r m m' :
  h !! r = Some m → id m' = id m →
  Forall (λ m, id m ≠ EmptyString) h →
  Forall (λ m, id m ≠ EmptyString) (<[r := m']> h).
Proof.
  intros Hr Hi Hh. apply Forall_insert; [done|]. rewrite Hi.
  rewrite Forall_lookup in Hh. by apply (Hh r).
Qed.

(** Assigning fields other than [id], [priority] and [createdAt] of an
    allocated object keeps the invariant. *)
Lemma invariant_assign q r m m' pm :
  invariant q → heap q !! r = Some m → same_key m m' →
  invariant (mkQueue (<[r := m']> (heap q)) (messages q) (delayedMessages q)
               (deadLetterMessages q) (options q) pm).
Proof.
  intros [Hv Hs Hsd Hi] Hr Hk.
  pose proof (heap_extends_insert _ _ _ _ Hr Hk) as He.
  pose proof Hv as Hv'. unfold collections in Hv'.
  rewrite !Forall_app in Hv'. destruct Hv' as (Hv1 & Hv2 & Hv3).
  constructor; simpl.
  - by eapply Forall_valid_extends.
  - by eapply heap_extends_sorted.
  - by eapply heap_extends_sorted.
  - eapply Forall_ids_insert; [done| |done]. by destruct Hk.
Qed.

Lemma new_queue_invariant o : invariant (new_queue (T := T) o).
Proof. constructor; simpl; constructor. Qed.

Lemma clear_invariant q : invariant q → invariant (clear q).
Proof. intros [Hv Hs Hsd Hi]. constructor; simpl; [constructor..|done]. Qed.

Lemma checkDelayedMessages_invariant now q :
  invariant q → invariant (checkDelayedMessages now q).
Proof.
  intros [Hv Hs Hsd Hi].
  pose proof (checkDelayedMessages_extends now q) as He.
  destruct (checkDelayedMessages_spec now q) as (h' & Heq & Hh').
  rewrite Heq in He |- *. simpl in He.
  unfold collections in Hv. rewrite !Forall_app in Hv. destruct Hv as (Hv1 & Hv2 & Hv3).
  assert (Forall (valid h') (filter (due (heap q) now) (delayedMessages q))) as Hvf.
  { eapply Forall_valid_extends; [done|]. by apply Forall_filter_sub. }
  constructor; simpl.
  - unfold collections. simpl. rewrite !Forall_app. split_and!.
    + destruct (filter _ _) as [|x l'] eqn:Hf.
      * by eapply Forall_valid_extends.
      * rewrite Array_sort_perm. apply Forall_app. split; [|done].
        by eapply Forall_valid_extends.
    + eapply Forall_valid_extends; [done|]. by apply Forall_filter_sub.
    + by eapply Forall_valid_extends.
  - destruct (filter _ _) as [|x l'] eqn:Hf.
    + by eapply heap_extends_sorted.
    + apply Array_sort_refs_sorted. apply Forall_app. split; [|done].
      by eapply Forall_valid_extends.
  - apply StronglySorted_filter. by eapply heap_extends_sorted.
  - rewrite Forall_lookup in Hi |- *. intros r m'. rewrite Hh'.
    case_decide.
    + destruct (heap q !! r) as [m|] eqn:Hr; [|done]. simpl.
      intros [= <-]. simpl. by apply (Hi r).
    + apply Hi.
Qed.

Lemma invariant_intro h ms ds dl o pm :
  Forall (valid h) ms → Forall (valid h) ds → Forall (valid h) dl →
  StronglySorted (ranks_before h) ms →
  StronglySorted (ranks_before h) ds →
  Forall (λ m, id m ≠ EmptyString) h →
  invariant (mkQueue h ms ds dl o pm).
Proof.
  intros. constructor; simpl; [|done..].
  unfold collections. simpl. by rewrite !Forall_app.
Qed.

Lemma invariant_elim q :
  invariant q →
  Forall (valid (heap q)) (messages q) ∧
  Forall (valid (heap q)) (delayedMessages q) ∧
  Forall (valid (heap q)) (deadLetterMessages q) ∧
  StronglySorted (ranks_before (heap q)) (messages q) ∧
  StronglySorted (ranks_before (heap q)) (delayedMessages q) ∧
  Forall (λ m, id m ≠ EmptyString) (heap q).
Proof.
  intros [Hv Hs Hsd Hi]. unfold collections in Hv. rewrite !Forall_app in Hv. tauto.
Qed.

Lemma generateUniqueId_nonempty ts rnd : generateUniqueId ts rnd ≠ EmptyString.
Proof. unfold generateUniqueId. by destruct ts. Qed.

Lemma truthy_string_Some s : truthy_string (Some s) = true ↔ s ≠ EmptyString.
Proof. destruct s; simpl; split; done. Qed.

Lemma valid_alloc h m : valid (h ++ [m]) (length h).
Proof. exists m. by apply list_lookup_middle. Qed.

Lemma enqueue_invariant now ts rnd d o q :
  invariant q → invariant (enqueue now ts rnd d o q).2.
Proof.
  intros Hinv. pose proof Hinv as (Hv1 & Hv2 & Hv3 & Hs & Hsd & Hi)%invariant_elim.
  unfold enqueue.
  set (i := if truthy_string (opt_id o) then default EmptyString (opt_id o) else _).
  assert (i ≠ EmptyString) as Hne.
  { subst i. destruct (opt_id o) as [[|c s]|]; simpl;
      [apply generateUniqueId_nonempty|done|apply generateUniqueId_nonempty]. }
  destruct (if truthy_string (opt_id o) then findMessageById i q else None)
    as [[r m]|]; [done|].
  destruct (truthy_number (opt_delay o) && _); simpl.
  - set (h := heap q ++ _).
    assert (heap_extends (heap q) h) as He by apply heap_extends_app.
    apply invariant_intro.
    + by eapply Forall_valid_extends.
    + rewrite Array_sort_perm. unfold Array_push. apply Forall_app. split.
      * by eapply Forall_valid_extends.
      * apply Forall_singleton. apply valid_alloc.
    + by eapply Forall_valid_extends.
    + by eapply heap_extends_sorted.
    + apply Array_sort_refs_sorted. unfold Array_push. apply Forall_app. split.
      * by eapply Forall_valid_extends.
      * apply Forall_singleton. apply valid_alloc.
    + apply Forall_app. split; [done|]. by apply Forall_singleton.
  - set (h := heap q ++ _).
    assert (heap_extends (heap q) h) as He by apply heap_extends_app.
    apply invariant_intro.
    + rewrite Array_sort_perm. unfold Array_push. apply Forall_app. split.
      * by eapply Forall_valid_extends.
      * apply Forall_singleton. apply valid_alloc.
    + by eapply Forall_valid_extends.
    + by eapply Forall_valid_extends.
    + apply Array_sort_refs_sorted. unfold Array_push. apply Forall_app. split.
      * by eapply Forall_valid_extends.
      * apply Forall_singleton. apply valid_alloc.
    + by eapply heap_extends_sorted.
    + apply Forall_app. split; [done|]. by apply Forall_singleton.
Qed.

Lemma dequeue_invariant t_sweep t_start t_upd q :
  invariant q → invariant (dequeue t_sweep t_start t_upd q).2.
Proof.
  intros Hinv%(checkDelayedMessages_invariant t_sweep). unfold dequeue.
  destruct (Array_find _ _ _) as [[[index r] m]|] eqn:Hf; [|done]. simpl.
  apply Array_find_elem_of in Hf as (_ & Hr & _).
  by apply invariant_assign with (m := m).
Qed.

Lemma peek_invariant now q : invariant q → invariant (peek now q).2.
Proof. apply checkDelayedMessages_invariant. Qed.

Lemma complete_invariant now i q : invariant q → invariant (complete now i q).2.
Proof.
  intros Hinv. unfold complete.
  destruct (findMessageById i q) as [[r m]|] eqn:Hf; [|done]. simpl.
  apply findMessageById_Some in Hf as (_ & Hr & _).
  by apply invariant_assign with (m := m).
Qed.

Lemma cancelDelayed_invariant i q : invariant q → invariant (cancelDelayed i q).2.
Proof.
  intros Hinv. pose proof Hinv as (Hv1 & Hv2 & Hv3 & Hs & Hsd & Hi)%invariant_elim.
  unfold cancelDelayed.
  destruct (Array_find _ _ _) as [[[index r] m]|]; [|done]. simpl.
  apply invariant_intro; try done; [by apply Forall_delete|].
  by apply StronglySorted_delete.
Qed.

Lemma retryDeadLetter_invariant now i q :
  invariant q → invariant (retryDeadLetter now i q).2.
Proof.
  intros Hinv. pose proof Hinv as (Hv1 & Hv2 & Hv3 & Hs & Hsd & Hi)%invariant_elim.
  unfold retryDeadLetter.
  destruct (Array_find _ _ _) as [[[index r] m]|] eqn:Hf; [|done]. simpl.
  apply Array_find_elem_of in Hf as (Hin & Hr & _).
  set (m' := set_delayUntil _ _).
  assert (heap_extends (heap q) (<[r := m']> (heap q))) as He.
  { eapply heap_extends_insert; [done|]. by repeat split. }
  assert (valid (<[r := m']> (heap q)) r) as Hvr.
  { eapply heap_extends_valid; [done|]. by exists m. }
  apply invariant_intro.
  - rewrite Array_sort_perm. unfold Array_push. apply Forall_app. split.
    + by eapply Forall_valid_extends.
    + by apply Forall_singleton.
  - by eapply Forall_valid_extends.
  - apply Forall_delete. by eapply Forall_valid_extends.
  - apply Array_sort_refs_sorted. unfold Array_push. apply Forall_app. split.
    + by eapply Forall_valid_extends.
    + by apply Forall_singleton.
  - by eapply heap_extends_sorted.
  - by eapply Forall_ids_insert.
Qed.

Lemma fail_invariant t_upd t_retry t_sweep i reason q :
  invariant q → invariant (fail t_upd t_retry t_sweep i reason q).2.
Proof.
  intros Hinv. pose proof Hinv as (Hv1 & Hv2 & Hv3 & Hs & Hsd & Hi)%invariant_elim.
  unfold fail.
  destruct (findMessageById i q) as [[r m]|] eqn:Hf; [|done].
  apply findMessageById_Some in Hf as (Hin & Hr & _).
  case_bool_decide; [|destruct (deadLetterEnabled (options q))].
  - set (m2 := set_delayUntil _ _). set (h := <[r := m2]> (heap q)).
    assert (heap_extends (heap q) h) as He.
    { eapply heap_extends_insert; [done|]. by repeat split. }
    assert (valid h r) as Hvr.
    { eapply heap_extends_valid; [done|]. by exists m. }
    set (q1 := mkQueue h _ _ _ _ _).
    assert (invariant q1) as Hinv1.
    { apply invariant_intro.
      - apply Forall_filter_sub. by eapply Forall_valid_extends.
      - rewrite Array_sort_perm. unfold Array_push. apply Forall_app. split.
        + by eapply Forall_valid_extends.
        + by apply Forall_singleton.
      - by eapply Forall_valid_extends.
      - apply StronglySorted_filter. by eapply heap_extends_sorted.
      - apply Array_sort_refs_sorted. unfold Array_push. apply Forall_app. split.
        + by eapply Forall_valid_extends.
        + by apply Forall_singleton.
      - by eapply Forall_ids_insert. }
    simpl. destruct (autoCheckDelayed (options q)); [|done].
    by apply checkDelayedMessages_invariant.
  - simpl. set (h := <[r := _]> (heap q)).
    assert (heap_extends (heap q) h) as He.
    { eapply heap_extends_insert; [done|]. by repeat split. }
    assert (valid h r) as Hvr.
    { eapply heap_extends_valid; [done|]. by exists m. }
    apply invariant_intro.
    + apply Forall_filter_sub. by eapply Forall_valid_extends.
    + apply Forall_filter_sub. by eapply Forall_valid_extends.
    + unfold Array_push. apply Forall_app. split.
      * by eapply Forall_valid_extends.
      * by apply Forall_singleton.
    + apply StronglySorted_filter. by eapply heap_extends_sorted.
    + apply StronglySorted_filter. by eapply heap_extends_sorted.
    + by eapply Forall_ids_insert.
  - simpl. apply invariant_assign with (m := m); [done..|]. by repeat split.
Qed.

Lemma step_invariant (op : Op T) q : invariant q → invariant (step op q).
Proof.
  destruct op; simpl.
  - apply enqueue_invariant.
  - apply peek_invariant.
  - apply dequeue_invariant.
  - apply complete_invariant.
  - apply fail_invariant.
  - apply cancelDelayed_invariant.
  - apply retryDeadLetter_invariant.
  - apply checkDelayedMessages_invariant.
  - apply clear_invariant.
Qed.

Lemma run_invariant (ops : list (Op T)) q : invariant q → invariant (run ops q).
Proof.
  revert q. induction ops as [|op ops IH]; intros q Hq; [done|].
  simpl. apply IH. by apply step_invariant.
Qed.

Lemma reachable_invariant o (ops : list (Op T)) : invariant (run ops (new_queue o)).
Proof. apply run_invariant, new_queue_invariant. Qed.
End InvariantFacts.

(** ** Enqueue and the idempotency check *)

Section EnqueueFacts.
Context {T : Type}.
Implicit Types (h : Heap T) (m : Message T) (l : list ref) (r : ref)
  (q : AdvancedQueue T).

Lemma enqueue_existing now ts rnd d o q X r m :
  opt_id o = Some X → X ≠ EmptyString →
  findMessageById X q = Some (r, m) →
  enqueue now ts rnd d o q = (r, q).
Proof.
  intros Ho HX%truthy_string_Some Hf. unfold enqueue.
  rewrite Ho, HX. simpl. by rewrite Hf.
Qed.

(** After an allocation of a message with id [X] that the collections did
    not hold, the lookup of [X] finds the new object. *)
Lemma find_after_alloc X q m ms ds dl o pm :
  invariant q → findMessageById X q = None → id m = X →
  (∀ r, r ∈ ms ++ ds ++ dl ↔ r ∈ collections q ∨ r = length (heap q)) →
  findMessageById X (mkQueue (heap q ++ [m]) ms ds dl o pm)
    = Some (length (heap q), m).
Proof.
  intros Hinv Hnone Hid Hel.
  set (q' := mkQueue _ _ _ _ _ _).
  assert (heap q' !! length (heap q) = Some m) as Hnew
    by by apply list_lookup_middle.
  assert (is_Some (findMessageById X q')) as [[r m'] Hf].
  { apply findMessageById_present.
    assert (length (heap q) ∈ ms ++ ds ++ dl) as Hin by (apply Hel; by right).
    rewrite !elem_of_app in Hin. unfold present.
    destruct Hin as [?|[?|?]]; [left|right; left|right; right];
      by eapply in_collection_elem_of. }
  rewrite Hf. pose proof Hf as (Hin & Hr & Hi)%findMessageById_Some.
  apply Hel in Hin as [Hold| ->].
  - exfalso. apply findMessageById_None in Hnone. apply Hnone.
    destruct Hinv as [Hv _ _ _]. rewrite Forall_forall in Hv.
    destruct (Hv r Hold) as [x Hx].
    assert (x = m') as ->.
    { simpl in Hr. rewrite (lookup_app_l_Some _ _ _ _ Hx) in Hr. congruence. }
    unfold collections in Hold. rewrite !elem_of_app in Hold. unfold present.
    destruct Hold as [?|[?|?]]; [left|right; left|right; right];
      by eapply in_collection_elem_of.
  - congruence.
Qed.

Lemma enqueue_fresh now ts rnd d o q X :
  invariant q → opt_id o = Some X → X ≠ EmptyString →
  findMessageById X q = None →
  ∃ m q',
    enqueue now ts rnd d o q = (length (heap q), q') ∧
    heap q' = heap q ++ [m] ∧
    findMessageById X q' = Some (length (heap q), m) ∧
    totalSize q' = S (totalSize q).
Proof.
  intros Hinv Ho HX%truthy_string_Some Hf. unfold enqueue.
  rewrite Ho, HX. simpl. rewrite Hf.
  destruct (truthy_number (opt_delay o) && _).
  - eexists _, _. split; [done|]. split; [done|]. split.
    + apply find_after_alloc; [done..|].
      intros r. unfold collections, Array_push.
      rewrite !elem_of_app, Array_sort_elem_of, elem_of_app, list_elem_of_singleton.
      tauto.
    + unfold totalSize, Array_push. simpl.
      rewrite Array_sort_length, length_app. simpl. lia.
  - eexists _, _. split; [done|]. split; [done|]. split.
    + apply find_after_alloc; [done..|].
      intros r. unfold collections, Array_push.
      rewrite !elem_of_app, Array_sort_elem_of, elem_of_app, list_elem_of_singleton.
      tauto.
    + unfold totalSize, Array_push. simpl.
      rewrite Array_sort_length, length_app. simpl. lia.
Qed.

Lemma present_nonempty X q : invariant q → present X q → X ≠ EmptyString.
Proof.
  intros [_ _ _ Hi] [[r m] Hf]%findMessageById_present.
  apply findMessageById_Some in Hf as (_ & Hr & <-).
  rewrite Forall_lookup in Hi. by apply (Hi r).
Qed.

(** What [enqueue] creates when it does not return an existing message:
    the status follows the truthiness of [delay], the placement follows
    [delay > 0]. *)
Lemma enqueue_created now ts rnd d o q :
  (truthy_string (opt_id o) = true →
   findMessageById (default EmptyString (opt_id o)) q = None) →
  ∃ m q',
    enqueue now ts rnd d o q = (length (heap q), q') ∧
    heap q' = heap q ++ [m] ∧
    data m = d ∧ priority m = default 0 (opt_priority o) ∧
    createdAt m = now ∧ updatedAt m = now ∧ processingAttempts m = 0 ∧
    status m = (if truthy_number (opt_delay o) then DELAYED else PENDING) ∧
    deadLetterMessages q' = deadLetterMessages q ∧
    if bool_decide (0 < default 0 (opt_delay o))
    then delayUntil m = Some (now + default 0 (opt_delay o)) ∧
         messages q' = messages q ∧
         delayedMessages q' ≡ₚ delayedMessages q ++ [length (heap q)]
    else delayUntil m = None ∧
         messages q' ≡ₚ messages q ++ [length (heap q)] ∧
         delayedMessages q' = delayedMessages q.
Proof.
  intros Hnew. unfold enqueue.
  destruct (truthy_string (opt_id o)) eqn:Ht; [rewrite Hnew by done|].
  all: case_bool_decide as Hpos.
  all: try (replace (truthy_number (opt_delay o)) with true
              by (destruct (opt_delay o) as [z|]; simpl in *; [|lia];
                  symmetry; apply negb_true_iff, Z.eqb_neq; lia)).
  all: try rewrite andb_false_r.
  all: cbn [andb]; eexists _, _; split; [done|]; simpl;
    split_and!; try done; apply Array_sort_perm.
Qed.
End EnqueueFacts.

(** ** Selection of the next message *)

Section SelectFacts.
Context {T : Type}.
Implicit Types (h : Heap T) (m : Message T) (l : list ref) (r : ref)
  (q : AdvancedQueue T).


Lemma StronglySorted_sorted_by h l :
  StronglySorted (ranks_before h) l → sorted_by h ordering_policy l.
Proof.
  intros Hs i j a b x y Hlt Hi Hj Ha Hb.
  apply (ranks_before_policy h a b x y Ha Hb).
  by eapply StronglySorted_head.
Qed.



(** The message an [enqueue] returns is an allocated object. *)
Lemma enqueue_returns_valid now ts rnd d o q :
  valid (heap (enqueue now ts rnd d o q).2) (enqueue now ts rnd d o q).1.
Proof.
  unfold enqueue.
  set (i := if truthy_string (opt_id o) then default EmptyString (opt_id o) else _).
  destruct (if truthy_string (opt_id o) then findMessageById i q else None)
    as [[r m]|] eqn:Hf.
  - simpl. destruct (truthy_string (opt_id o)); [|done].
    apply findMessageById_Some in Hf as (_ & Hr & _). by exists m.
  - destruct (truthy_number (opt_delay o) && _); simpl; apply valid_alloc.
Qed.
End SelectFacts.

(** ** Unique ids *)

Section UniqueFacts.
Context {T : Type}.
Implicit Types (h : Heap T) (m : Message T) (l : list ref) (r : ref)
  (q : AdvancedQueue T).



















End UniqueFacts.

Section FailRetryFacts.
Context {T : Type}.
Implicit Types (q : AdvancedQueue T) (m : Message T) (r : ref).

Lemma fail_retry_keeps_dead t_upd t_retry t_sweep i reason q r m :
  findMessageById i q = Some (r, m) →
  processingAttempts m + 1 < maxRetries (options q) →
  deadLetterMessages (fail t_upd t_retry t_sweep i reason q).2 = deadLetterMessages q.
Proof.
  intros Hf Hlt. unfold fail. rewrite Hf.
  cbn [processingAttempts set_processingAttempts].
  rewrite bool_decide_true by done.
  destruct (autoCheckDelayed (options q)); [|done]. simpl.
  by destruct (checkDelayedMessages_spec t_sweep
                 (mkQueue
                    (<[r := set_delayUntil (Some (t_retry + retryDelay (options q)))
                              (set_status DELAYED
                                 (set_processingAttempts (processingAttempts m + 1)
                                    (set_failureReason reason
                                       (set_updatedAt t_upd (set_status FAILED m)))))]>
                       (heap q))
                    (filter_out_id
                       (<[r := set_delayUntil (Some (t_retry + retryDelay (options q)))
                                 (set_status DELAYED
                                    (set_processingAttempts (processingAttempts m + 1)
                                       (set_failureReason reason
                                          (set_updatedAt t_upd (set_status FAILED m)))))]>
                          (heap q)) i (messages q))
                    (Array_sort
                       (compare_refs
                          (<[r := set_delayUntil (Some (t_retry + retryDelay (options q)))
                                    (set_status DELAYED
                                       (set_processingAttempts (processingAttempts m + 1)
                                          (set_failureReason reason
                                             (set_updatedAt t_upd (set_status FAILED m)))))]>
                             (heap q)))
                       (Array_push (delayedMessages q) r))
                    (deadLetterMessages q) (options q)
                    (processingMessages q ∖ {[i]}))) as (h' & -> & _).
Qed.
End FailRetryFacts.

(** * The statements of the specification *)

Section FailClaims.
Context {T : Type}.
Implicit Types (q : AdvancedQueue T) (m : Message T) (r : ref).

(** C1, as amended.  For an id present in some collection, [fail] acts on
    the message the lookup finds: it returns true, increments
    [processingAttempts] by one and sets [failureReason].  Below
    [maxRetries] the message gets [delayUntil = now + retryDelay] and is
    pushed onto the delayed collection with status Delayed, unless
    [autoCheckDelayed] is set and the delay has already elapsed at the
    sweep that follows at once: then it ends Pending in the ready
    collection.  At or above [maxRetries] with dead-lettering enabled it
    ends DeadLetter at the end of the dead-letter collection and its id is
    gone from the other two.  At or above [maxRetries] with dead-lettering
    disabled it ends Failed and no collection changes (the message stays
    where it was).  For an id present in no collection [fail] returns false
    and changes nothing. *)
Theorem fail_transition (t_upd t_retry t_sweep : Z) (messageId : string)
    (reason : option string) q :
  (present messageId q →
   ∃ r m m' q',
     findMessageById messageId q = Some (r, m) ∧
     r ∈ collections q ∧ id m = messageId ∧
     fail t_upd t_retry t_sweep messageId reason q = (true, q') ∧
     heap q' !! r = Some m' ∧
     processingAttempts m' = processingAttempts m + 1 ∧
     failureReason m' = reason ∧
     (processingAttempts m + 1 < maxRetries (options q) →
        delayUntil m' = Some (t_retry + retryDelay (options q)) ∧
        if swept_at_once (options q) t_retry t_sweep
        then status m' = PENDING ∧ r ∈ messages q' ∧ r ∉ delayedMessages q'
        else status m' = DELAYED ∧ r ∈ delayedMessages q' ∧ r ∉ messages q') ∧
     (maxRetries (options q) ≤ processingAttempts m + 1 →
        deadLetterEnabled (options q) = true →
        status m' = DEAD_LETTER ∧
        deadLetterMessages q' = deadLetterMessages q ++ [r] ∧
        ¬ in_collection (heap q') messageId (messages q') ∧
        ¬ in_collection (heap q') messageId (delayedMessages q')) ∧
     (maxRetries (options q) ≤ processingAttempts m + 1 →
        deadLetterEnabled (options q) = false →
        status m' = FAILED ∧
        messages q' = messages q ∧
        delayedMessages q' = delayedMessages q ∧
        deadLetterMessages q' = deadLetterMessages q)) ∧
  (¬ present messageId q →
   fail t_upd t_retry t_sweep messageId reason q = (false, q)).
Proof.
  split.
  - intros [[r m] Hf]%findMessageById_present.
    destruct (fail_found t_upd t_retry t_sweep _ reason _ _ _ Hf)
      as (q' & m' & Hfail & Hr' & Hk & Ha & Hre & H1 & H2 & H3).
    pose proof (findMessageById_Some _ _ _ _ Hf) as (? & ? & ?).
    exists r, m, m', q'. split_and!; done.
  - intros Hn%findMessageById_None. by apply fail_not_found.
Qed.

(** C10.  [fail] does not look at the status of the message it finds:
    whatever status [s] the message has (Pending and never dequeued,
    Delayed, Completed, ...), [fail] returns true, increments
    [processingAttempts], sets [failureReason] and applies the retry /
    dead-letter transition, which depends on the new attempt count and the
    options only.  Below [maxRetries] the message gets
    [delayUntil = now + retryDelay] and ends Delayed in the delayed
    collection and out of the ready one (or, when the sweep that follows
    at once already promotes it, Pending in the ready collection and out
    of the delayed one).  At or above [maxRetries] with dead-lettering
    enabled it ends DeadLetter at the end of the dead-letter collection
    and its id is gone from the ready and the delayed collection; with
    dead-lettering disabled it ends Failed and no collection changes. *)
Theorem fail_any_status (t_upd t_retry t_sweep : Z) (messageId : string)
    (reason : option string) q r m (s : MessageStatus) :
  findMessageById messageId q = Some (r, m) →
  status m = s →
  ∃ m' q',
    fail t_upd t_retry t_sweep messageId reason q = (true, q') ∧
    heap q' !! r = Some m' ∧
    processingAttempts m' = processingAttempts m + 1 ∧
    failureReason m' = reason ∧
    status m' =
      status_after_fail (options q) t_retry t_sweep (processingAttempts m + 1) ∧
    (processingAttempts m + 1 < maxRetries (options q) →
       delayUntil m' = Some (t_retry + retryDelay (options q)) ∧
       deadLetterMessages q' = deadLetterMessages q ∧
       if swept_at_once (options q) t_retry t_sweep
       then status m' = PENDING ∧ r ∈ messages q' ∧ r ∉ delayedMessages q'
       else status m' = DELAYED ∧ r ∈ delayedMessages q' ∧ r ∉ messages q') ∧
    (maxRetries (options q) ≤ processingAttempts m + 1 →
       deadLetterEnabled (options q) = true →
       status m' = DEAD_LETTER ∧
       deadLetterMessages q' = deadLetterMessages q ++ [r] ∧
       ¬ in_collection (heap q') messageId (messages q') ∧
       ¬ in_collection (heap q') messageId (delayedMessages q')) ∧
    (maxRetries (options q) ≤ processingAttempts m + 1 →
       deadLetterEnabled (options q) = false →
       status m' = FAILED ∧
       messages q' = messages q ∧
       delayedMessages q' = delayedMessages q ∧
       deadLetterMessages q' = deadLetterMessages q).
Proof.
  intros Hf _.
  destruct (fail_found t_upd t_retry t_sweep _ reason _ _ _ Hf)
    as (q' & m' & Hfail & Hr' & Hk & Ha & Hre & H1 & H2 & H3).
  exists m', q'. split_and!; try done.
  - unfold status_after_fail. case_bool_decide as Hlt.
    + destruct (H1 Hlt) as [_ Hs]. by destruct (swept_at_once _ _ _); destruct Hs.
    + destruct (deadLetterEnabled (options q)) eqn:Hd.
      * by destruct H2 as [? _]; [lia|done|].
      * by destruct H3 as [? _]; [lia|done|].
  - intros Hlt. destruct (H1 Hlt) as [Hd Hs]. split_and!; [done| |done].
    pose proof (fail_retry_keeps_dead t_upd t_retry t_sweep messageId reason
                  q r m Hf Hlt) as Hdead.
    by rewrite Hfail in Hdead.
Qed.
End FailClaims.

Lemma fail_transition_witness :
  present "a" (one_ready DEFAULT_QUEUE_OPTIONS) ∧
  ∃ q', fail 1 1 1 "a" (Some "first") (one_ready DEFAULT_QUEUE_OPTIONS) = (true, q') ∧
        status_of q' 0%nat = Some DELAYED ∧
        delayUntil_of q' 0%nat = Some 1001 ∧
        0%nat ∈ delayedMessages q'.
Proof.
  assert (present "a" (one_ready DEFAULT_QUEUE_OPTIONS)) as Hp.
  { left. exists 0%nat. split; [vm_compute; left|vm_compute; reflexivity]. }
  split; [exact Hp|].
  destruct (proj1 (fail_transition 1 1 1 "a" (Some "first") _) Hp)
    as (r & m & m' & q' & Hf & _ & _ & Hfail & Hr & _ & _ & H1 & _).
  vm_compute in Hf. injection Hf as <- <-.
  destruct H1 as [Hd (Hs & Hin & _)]; [reflexivity|].
  exists q'. unfold status_of, delayUntil_of. rewrite Hr. simpl.
  rewrite Hs, Hd. split; [exact Hfail|]. split; [reflexivity|].
  split; [reflexivity|exact Hin].
Defined.

(** C1 as stated fails twice.  With [retryDelay = 0] and
    [autoCheckDelayed], a first failure (1 < 3) leaves the message Pending
    in the ready collection and the delayed collection empty.  With
    [maxRetries = 1] and dead-lettering disabled, failing a message of the
    delayed collection leaves it Failed in the delayed collection; the
    ready collection is empty. *)
Lemma fail_transition_counterexample :
  (fst <$> findMessageById "a" (one_ready eager_retry_options) = Some 0%nat ∧
   status_of (fail 1 1 1 "a" None (one_ready eager_retry_options)).2 0%nat
     = Some PENDING ∧
   messages (fail 1 1 1 "a" None (one_ready eager_retry_options)).2 = [0%nat] ∧
   delayedMessages (fail 1 1 1 "a" None (one_ready eager_retry_options)).2 = []) ∧
  (fst <$> findMessageById "a" (one_delayed parking_options) = Some 0%nat ∧
   status_of (fail 1 1 1 "a" None (one_delayed parking_options)).2 0%nat
     = Some FAILED ∧
   messages (fail 1 1 1 "a" None (one_delayed parking_options)).2 = [] ∧
   delayedMessages (fail 1 1 1 "a" None (one_delayed parking_options)).2 = [0%nat]).
Proof. vm_compute. repeat split. Qed.

Lemma fail_any_status_witness :
  (∃ q', fail 1 1 1 "a" None (one_ready DEFAULT_QUEUE_OPTIONS) = (true, q') ∧
         status_of (one_ready DEFAULT_QUEUE_OPTIONS) 0%nat = Some PENDING ∧
         status_of q' 0%nat = Some DELAYED ∧
         0%nat ∈ delayedMessages q' ∧ 0%nat ∉ messages q') ∧
  (∃ q', fail 1 1 1 "a" None (one_delayed DEFAULT_QUEUE_OPTIONS) = (true, q') ∧
         status_of (one_delayed DEFAULT_QUEUE_OPTIONS) 0%nat = Some DELAYED ∧
         status_of q' 0%nat = Some DELAYED ∧
         delayUntil_of q' 0%nat = Some 1001) ∧
  (∃ q', fail 3 3 3 "a" None (one_completed DEFAULT_QUEUE_OPTIONS) = (true, q') ∧
         status_of (one_completed DEFAULT_QUEUE_OPTIONS) 0%nat = Some COMPLETED ∧
         status_of q' 0%nat = Some DELAYED ∧
         0%nat ∈ delayedMessages q' ∧ 0%nat ∉ messages q').
Proof.
  split_and!.
  - destruct (findMessageById "a" (one_ready DEFAULT_QUEUE_OPTIONS))
      as [[r m]|] eqn:Hf; [|vm_compute in Hf; discriminate].
    destruct (fail_any_status 1 1 1 "a" None _ r m (status m) Hf eq_refl)
      as (m' & q' & Hfail & Hr & _ & _ & _ & H1 & _).
    vm_compute in Hf. injection Hf as <- <-.
    destruct H1 as (_ & _ & Hs & Hin & Hout); [reflexivity|].
    exists q'. unfold status_of at 2. rewrite Hr. simpl. rewrite Hs.
    split; [exact Hfail|]. split; [reflexivity|]. split; [reflexivity|].
    split; [exact Hin|exact Hout].
  - destruct (findMessageById "a" (one_delayed DEFAULT_QUEUE_OPTIONS))
      as [[r m]|] eqn:Hf; [|vm_compute in Hf; discriminate].
    destruct (fail_any_status 1 1 1 "a" None _ r m (status m) Hf eq_refl)
      as (m' & q' & Hfail & Hr & _ & _ & _ & H1 & _).
    vm_compute in Hf. injection Hf as <- <-.
    destruct H1 as (Hd & _ & Hs & _); [reflexivity|].
    exists q'. unfold status_of at 2, delayUntil_of. rewrite Hr. simpl.
    rewrite Hs, Hd.
    split; [exact Hfail|]. split; [reflexivity|]. split; reflexivity.
  - destruct (findMessageById "a" (one_completed DEFAULT_QUEUE_OPTIONS))
      as [[r m]|] eqn:Hf; [|vm_compute in Hf; discriminate].
    destruct (fail_any_status 3 3 3 "a" None _ r m (status m) Hf eq_refl)
      as (m' & q' & Hfail & Hr & _ & _ & _ & H1 & _).
    vm_compute in Hf. injection Hf as <- <-.
    destruct H1 as (_ & _ & Hs & Hin & Hout); [reflexivity|].
    exists q'. unfold status_of at 2. rewrite Hr. simpl. rewrite Hs.
    split; [exact Hfail|]. split; [reflexivity|]. split; [reflexivity|].
    split; [exact Hin|exact Hout].
Defined.

Section MoveClaims.
Context {T : Type}.
Implicit Types (q : AdvancedQueue T) (m : Message T) (r : ref).


End MoveClaims.



(** C7, evaluated where the code breaks it.  A dead-lettered message
    that fails once more is pushed onto the dead-letter collection a
    second time (C4).  [retryDeadLetter] then returns true and removes one
    slot only: the message is Pending in the ready collection and still
    in the dead-letter collection, a second retry returns true again and
    puts it into the ready collection twice. *)
Lemma retryDeadLetter_keeps_slot :
  deadLetterMessages dead_twice = [0%nat; 0%nat] ∧
  (id <$> heap dead_twice !! 0%nat) = Some "a" ∧
  (retryDeadLetter 5 "a" dead_twice).1 = true ∧
  deadLetterMessages (retryDeadLetter 5 "a" dead_twice).2 = [0%nat] ∧
  messages (retryDeadLetter 5 "a" dead_twice).2 = [0%nat] ∧
  status_of (retryDeadLetter 5 "a" dead_twice).2 0%nat = Some PENDING ∧
  (retryDeadLetter 6 "a" (retryDeadLetter 5 "a" dead_twice).2).1 = true ∧
  messages (retryDeadLetter 6 "a" (retryDeadLetter 5 "a" dead_twice).2).2
    = [0%nat; 0%nat].
Proof. vm_compute. repeat split. Qed.

(** C9, evaluated where the code breaks it.  A message of the delayed
    collection that fails is pushed onto that collection a second time
    (C4).  [cancelDelayed] then returns true and removes one slot only:
    the message is still in the delayed collection, a second
    [cancelDelayed] would return true again, and once the retry delay has
    elapsed a [dequeue] hands out the cancelled message. *)
Lemma cancelDelayed_keeps_slot :
  delayedMessages delayed_failed = [0%nat; 0%nat] ∧
  (id <$> heap delayed_failed !! 0%nat) = Some "a" ∧
  (cancelDelayed "a" delayed_failed).1 = true ∧
  delayedMessages (cancelDelayed "a" delayed_failed).2 = [0%nat] ∧
  status_of (cancelDelayed "a" delayed_failed).2 0%nat = Some DELAYED ∧
  (cancelDelayed "a" (cancelDelayed "a" delayed_failed).2).1 = true ∧
  (dequeue 2000 2000 2000 (cancelDelayed "a" delayed_failed).2).1 = Some 0%nat.
Proof. vm_compute. repeat split. Qed.

Section EnqueueClaims.
Context {T : Type}.
Implicit Types (q : AdvancedQueue T) (m : Message T) (r : ref).

(** C3.  In every state [q] reached from the empty queue, [enqueue] with an
    id [X] that is present in some collection returns the reference of the
    message the lookup finds and leaves the whole queue as it was: no
    object is allocated, no field and no collection changes, so
    [totalSize] is unchanged.  Consequently two calls with the same
    explicit (non-empty) id return the same message and leave the same
    queue, and they raise [totalSize] by exactly one when the id was new. *)
Theorem enqueue_idempotent (o : QueueOptions) (ops : list (Op T)) (X : string)
    (now : Z) (ts rnd : string) (d : T) (eo : EnqueueOptions) :
  let q := run ops (new_queue o) in
  opt_id eo = Some X →
  (present X q →
   ∃ r m,
     findMessageById X q = Some (r, m) ∧
     enqueue now ts rnd d eo q = (r, q) ∧
     totalSize (enqueue now ts rnd d eo q).2 = totalSize q) ∧
  (X ≠ EmptyString →
   ∀ now2 ts2 rnd2 d2 eo2, opt_id eo2 = Some X →
   ∃ r q1,
     enqueue now ts rnd d eo q = (r, q1) ∧
     enqueue now2 ts2 rnd2 d2 eo2 q1 = (r, q1) ∧
     (present X q → q1 = q) ∧
     (¬ present X q → totalSize q1 = S (totalSize q))).
Proof.
  intros q Ho. assert (invariant q) as Hinv by apply reachable_invariant.
  split.
  - intros Hp. pose proof (present_nonempty _ _ Hinv Hp) as HX.
    apply findMessageById_present in Hp as [[r m] Hf].
    exists r, m. split; [done|].
    by rewrite (enqueue_existing now ts rnd d eo q X r m).
  - intros HX now2 ts2 rnd2 d2 eo2 Ho2.
    destruct (findMessageById X q) as [[r m]|] eqn:Hf.
    + exists r, q. rewrite (enqueue_existing now ts rnd d eo q X r m) by done.
      rewrite (enqueue_existing now2 ts2 rnd2 d2 eo2 q X r m) by done.
      split_and!; try done.
      intros Hn. destruct Hn. apply findMessageById_present. by rewrite Hf.
    + destruct (enqueue_fresh now ts rnd d eo q X Hinv Ho HX Hf)
        as (m & q1 & He & _ & Hf1 & Hsz).
      exists (length (heap q)), q1. split; [done|].
      rewrite (enqueue_existing now2 ts2 rnd2 d2 eo2 q1 X _ m) by done.
      split_and!; try done.
      intros Hp%findMessageById_present. rewrite Hf in Hp. by destruct Hp.
Qed.
End EnqueueClaims.

Lemma enqueue_idempotent_witness :
  (∃ r, enqueue 5 "t" "r" "again" (with_id "a") (one_ready DEFAULT_QUEUE_OPTIONS)
          = (r, one_ready DEFAULT_QUEUE_OPTIONS)) ∧
  (∃ r q1,
     enqueue 5 "t" "r" "other" (with_id "b") (one_ready DEFAULT_QUEUE_OPTIONS) = (r, q1) ∧
     enqueue 6 "t" "r" "other" (with_id "b") q1 = (r, q1) ∧
     totalSize q1 = 2%nat).
Proof.
  split.
  - destruct (proj1 (enqueue_idempotent DEFAULT_QUEUE_OPTIONS
                       [OpEnqueue 0 "t" "r" "job" (with_id "a")] "a"
                       5 "t" "r" "again" (with_id "a") eq_refl))
      as (r & m & _ & He & _).
    { left. exists 0%nat. split; [vm_compute; left|vm_compute; reflexivity]. }
    exists r. exact He.
  - destruct (proj2 (enqueue_idempotent DEFAULT_QUEUE_OPTIONS
                       [OpEnqueue 0 "t" "r" "job" (with_id "a")] "b"
                       5 "t" "r" "other" (with_id "b") eq_refl))
      with (now2 := 6) (ts2 := "t") (rnd2 := "r") (d2 := "other") (eo2 := with_id "b")
      as (r & q1 & He1 & He2 & _ & Hsz); [done|reflexivity|].
    exists r, q1. split; [exact He1|]. split; [exact He2|].
    rewrite Hsz; [reflexivity|].
    intros [(x & Hin & Hx)|[(x & Hin & _)|(x & Hin & _)]].
    + vm_compute in Hin. inversion Hin as [|? ? ? Hin']; subst.
      * vm_compute in Hx. discriminate.
      * inversion Hin'.
    + vm_compute in Hin. inversion Hin.
    + vm_compute in Hin. inversion Hin.
Defined.

Section OrderClaims.
Context {T : Type}.
Implicit Types (q : AdvancedQueue T) (m : Message T) (r : ref).


(** C6, as amended.  In every state reached from the empty queue, and so
    after every [enqueue] with a positive delay and after every [fail]
    below [maxRetries], the delayed collection is ordered by the ordering
    policy of the comparator (priority descending, then [createdAt]
    ascending), not by [delayUntil]. *)
Theorem delayed_sorted_by_policy (o : QueueOptions) (ops : list (Op T)) :
  let q := run ops (new_queue o) in
  sorted_by (heap q) ordering_policy (delayedMessages q) ∧
  (∀ now ts rnd d eo,
     let q' := (enqueue now ts rnd d eo q).2 in
     sorted_by (heap q') ordering_policy (delayedMessages q')) ∧
  (∀ t_upd t_retry t_sweep messageId reason,
     let q' := (fail t_upd t_retry t_sweep messageId reason q).2 in
     sorted_by (heap q') ordering_policy (delayedMessages q')).
Proof.
  intros q. split_and!.
  - apply StronglySorted_sorted_by.
    by destruct (reachable_invariant o ops).
  - intros now ts rnd d eo q'. apply StronglySorted_sorted_by.
    by destruct (enqueue_invariant now ts rnd d eo q (reachable_invariant o ops)).
  - intros t_upd t_retry t_sweep messageId reason q'. apply StronglySorted_sorted_by.
    by destruct (fail_invariant t_upd t_retry t_sweep messageId reason q
                   (reachable_invariant o ops)).
Qed.
End OrderClaims.

(** The premise on generated ids holds, for example, along the calls that
    build [two_delayed]. *)
Lemma fresh_ids_two_delayed :
  fresh_ids [OpEnqueue 0 "t" "r1" "slow" (with_delay 1000);
             OpEnqueue 1 "t" "r2" "fast" (with_delay 10)]
    (new_queue DEFAULT_QUEUE_OPTIONS).
Proof.
  simpl. split_and!; try done; intros _.
  - intros [(r & Hin & _)|[(r & Hin & _)|(r & Hin & _)]];
      vm_compute in Hin; inversion Hin.
  - intros [(r & Hin & _)|[(r & Hin & Hr)|(r & Hin & _)]];
      vm_compute in Hin; try (by inversion Hin).
    inversion Hin as [|? ? ? Hin']; subst; [|inversion Hin'].
    vm_compute in Hr. discriminate.
Qed.

(** C6 as stated fails: a delay of 1000 enqueued at time 0 and then a
    delay of 10 enqueued at time 1 leave the delayed collection in the
    order of creation, with [delayUntil] 1000 before [delayUntil] 11. *)
Lemma delayed_sorted_counterexample :
  delayedMessages two_delayed = [0%nat; 1%nat] ∧
  delayUntil_of two_delayed 0%nat = Some 1000 ∧
  delayUntil_of two_delayed 1%nat = Some 11 ∧
  ¬ sorted_by (heap two_delayed) delayUntil_ascending (delayedMessages two_delayed).
Proof.
  split_and!; [by vm_compute..|].
  intros Hs.
  assert (∃ x y, heap two_delayed !! 0%nat = Some x ∧
                 heap two_delayed !! 1%nat = Some y ∧
                 delayUntil x = Some 1000 ∧ delayUntil y = Some 11)
    as (x & y & Hx & Hy & Hdx & Hdy) by (vm_compute; eauto 10).
  assert (1000 ≤ 11); [|lia].
  apply (Hs 0%nat 1%nat 0%nat 1%nat x y); try done. lia.
Qed.

(** C2, evaluated where the code breaks it.  A message that failed once
    waits in the delayed collection for its retry; [complete] marks it
    Completed but leaves it there with its [delayUntil].  [dequeue] and
    [peek] skip it before the retry time, but at the retry time their
    opening sweep resets the status to Pending and the completed message
    is returned.  The same happens to a message completed while it waits
    for its first delay, and to a message left Failed in the delayed
    collection when dead-lettering is disabled. *)
Lemma dequeue_returns_completed :
  status_of completed_after_fail 0%nat = Some COMPLETED ∧
  (dequeue 1001 1001 1001 completed_after_fail).1 = None ∧
  (dequeue 1002 1002 1002 completed_after_fail).1 = Some 0%nat ∧
  (peek 1002 completed_after_fail).1 = Some 0%nat ∧
  status_of completed_while_delayed 0%nat = Some COMPLETED ∧
  (dequeue 1000 1000 1000 completed_while_delayed).1 = Some 0%nat ∧
  status_of parked_while_delayed 0%nat = Some FAILED ∧
  (dequeue 1000 1000 1000 parked_while_delayed).1 = Some 0%nat.
Proof. vm_compute. repeat split. Qed.

(** C4, evaluated where the code breaks it.  Failing a message that sits in
    the delayed collection pushes it onto that collection a second time;
    failing a dead-lettered message pushes it onto the dead-letter
    collection a second time, and a retry then leaves it in the ready and in
    the dead-letter collection at once. *)
Lemma fail_duplicates_entry :
  delayedMessages (one_delayed DEFAULT_QUEUE_OPTIONS) = [0%nat] ∧
  delayedMessages (fail 1 1 1 "a" None (one_delayed DEFAULT_QUEUE_OPTIONS)).2
    = [0%nat; 0%nat] ∧
  deadLetterMessages one_dead = [0%nat] ∧
  deadLetterMessages (fail 4 4 4 "a" None one_dead).2 = [0%nat; 0%nat] ∧
  messages dead_twice_retried = [0%nat] ∧
  deadLetterMessages dead_twice_retried = [0%nat].
Proof. vm_compute. repeat split. Qed.

(** C5, evaluated where the code breaks it.  With a negative delay the new
    message gets the status Delayed (the status tests [options.delay] for
    truthiness only) but is pushed onto the ready collection (the placement
    also tests [options.delay > 0]), with no [delayUntil]. *)
Lemma enqueue_negative_delay :
  (enqueue 0 "t" "r" "job" (with_delay (-5)) (new_queue DEFAULT_QUEUE_OPTIONS)).1
    = 0%nat ∧
  status_of
    (enqueue 0 "t" "r" "job" (with_delay (-5)) (new_queue DEFAULT_QUEUE_OPTIONS)).2
    0%nat = Some DELAYED ∧
  delayUntil_of
    (enqueue 0 "t" "r" "job" (with_delay (-5)) (new_queue DEFAULT_QUEUE_OPTIONS)).2
    0%nat = None ∧
  messages
    (enqueue 0 "t" "r" "job" (with_delay (-5)) (new_queue DEFAULT_QUEUE_OPTIONS)).2
    = [0%nat] ∧
  delayedMessages
    (enqueue 0 "t" "r" "job" (with_delay (-5)) (new_queue DEFAULT_QUEUE_OPTIONS)).2
    = [].
Proof. vm_compute. repeat split. Qed.

Section TopicClaims.
Context {T : Type}.
Implicit Types (tq : Topic.AdvancedTopicQueue T) (m : Message T) (r : ref).

Lemma topic_step_posts (op : Op T) tq :
  Topic.posts (Topic.step op tq) =
    match Topic.channel tq with
    | Some _ => (Topic.posts tq + if posting_call op then 1 else 0)%nat
    | None => 0%nat
    end.
Proof.
  unfold Topic.posts.
  destruct op; simpl; try (destruct (Topic.channel tq); simpl; lia).
  unfold Topic.enqueue.
  pose proof (enqueue_returns_valid now timestampPart randomPart d o (Topic.base tq))
    as [m Hm].
  destruct (enqueue now timestampPart randomPart d o (Topic.base tq)) as [r q'].
  simpl in *. destruct (Topic.channel tq) as [posted|]; [|done].
  destruct (truthy_number (opt_delay o)); simpl; [lia|].
  rewrite Hm. simpl. rewrite length_app. simpl. lia.
Qed.

Lemma topic_step_channel (op : Op T) tq :
  is_Some (Topic.channel (Topic.step op tq)) ↔ is_Some (Topic.channel tq).
Proof.
  destruct op; simpl; try done. unfold Topic.enqueue.
  destruct (enqueue _ _ _ _ _ _) as [r q']. simpl.
  destruct (Topic.channel tq) as [posted|]; [|done].
  destruct (negb _); split; eauto.
Qed.

(** X25.  What the topic queue posts.  With a channel, a call of the
    topic queue's [enqueue] posts the message it returns exactly once when
    the [delay] option of the call is absent or zero, and posts nothing
    otherwise, whether the message was created by the call or was an
    existing one found by its id.  No other call posts, so over any
    sequence of calls the number of posts is the number of [enqueue] calls
    with a falsy [delay]; sweeps that promote delayed messages post
    nothing.  Without a channel nothing is ever posted. *)
Theorem topic_enqueue_posts (now : Z) (ts rnd : string) (d : T)
    (eo : EnqueueOptions) (ops : list (Op T)) tq :
  (Topic.enqueue now ts rnd d eo tq).1 = (enqueue now ts rnd d eo (Topic.base tq)).1 ∧
  Topic.base (Topic.enqueue now ts rnd d eo tq).2
    = (enqueue now ts rnd d eo (Topic.base tq)).2 ∧
  match Topic.channel tq with
  | Some posted =>
      ∃ m,
        heap (enqueue now ts rnd d eo (Topic.base tq)).2
          !! (enqueue now ts rnd d eo (Topic.base tq)).1 = Some m ∧
        Topic.channel (Topic.enqueue now ts rnd d eo tq).2 =
          Some (if truthy_number (opt_delay eo) then posted else posted ++ [m]) ∧
        Topic.posts (Topic.run ops tq) =
          (length posted + length (filter (λ op, posting_call op) ops))%nat
  | None =>
      Topic.channel (Topic.enqueue now ts rnd d eo tq).2 = None ∧
      Topic.posts (Topic.run ops tq) = 0%nat
  end.
Proof.
  assert (∀ ops tq,
            Topic.posts (Topic.run ops tq) =
              match Topic.channel tq with
              | Some _ =>
                  (Topic.posts tq + length (filter (λ op, posting_call op) ops))%nat
              | None => 0%nat
              end) as Hrun.
  { clear. induction ops as [|op ops IH]; intros tq.
    - simpl. unfold Topic.posts. destruct (Topic.channel tq); simpl; lia.
    - change (Topic.run (op :: ops) tq) with (Topic.run ops (Topic.step op tq)).
      rewrite IH, topic_step_posts.
      pose proof (topic_step_channel op tq) as Hc.
      destruct (Topic.channel tq) as [posted|].
      + destruct (Topic.channel (Topic.step op tq)) as [posted'|];
          [|by destruct (proj2 Hc) as [? [=]]; eauto].
        rewrite filter_cons. destruct (posting_call op); simpl; lia.
      + destruct (Topic.channel (Topic.step op tq)) as [posted'|]; [|done].
        by destruct (proj1 Hc) as [? [=]]; eauto. }
  unfold Topic.enqueue.
  pose proof (enqueue_returns_valid now ts rnd d eo (Topic.base tq)) as [m Hm].
  specialize (Hrun ops tq). unfold Topic.posts at 2 in Hrun.
  destruct (enqueue now ts rnd d eo (Topic.base tq)) as [r q'].
  simpl in *. split; [done|]. split; [done|].
  destruct (Topic.channel tq) as [posted|]; [|done].
  exists m. split; [done|]. split; [|done].
  destruct (truthy_number (opt_delay eo)); simpl; [done|]. by rewrite Hm.
Qed.
End TopicClaims.

(** C8, evaluated where the code breaks it.  The override posts whenever
    the call carries no delay, without looking at the message
    [super.enqueue] returned.  Two calls with the same id and no delay
    post twice, although the second call returns the existing message and
    the queue holds one message.  And a call without delay for an id that
    is waiting in the delayed collection posts that message, which is
    Delayed. *)
Lemma topic_enqueue_rebroadcast :
  Topic.posts twice_same_id = 2%nat ∧
  totalSize (Topic.base twice_same_id) = 1%nat ∧
  (id <$> default [] (Topic.channel twice_same_id)) = ["a"; "a"] ∧
  Topic.posts delayed_then_plain = 1%nat ∧
  (status <$> default [] (Topic.channel delayed_then_plain)) = [DELAYED] ∧
  delayedMessages (Topic.base delayed_then_plain) = [0%nat] ∧
  messages (Topic.base delayed_then_plain) = [] ∧
  totalSize (Topic.base delayed_then_plain) = 1%nat.
Proof. vm_compute. repeat split. Qed.

(** * Further properties of the code *)

(** ** The plain queue and the topic queue *)

Section BasicQueueFacts.
Context {T : Type}.
Implicit Types (q : Queue.Queue T) (tq : TopicQueue.TopicQueue T) (xs : list T).

Lemma enqueue_all_items xs q :
  Queue.items (enqueue_all xs q) = Queue.items q ++ xs.
Proof.
  revert q. induction xs as [|x xs IH]; intros q; simpl.
  - by rewrite app_nil_r.
  - rewrite IH. simpl. unfold Array_push. by rewrite <- app_assoc.
Qed.

Lemma dequeue_n_items n q :
  dequeue_n n q = (take n (Queue.items q), Queue.Build (drop n (Queue.items q))).
Proof.
  revert q. induction n as [|n IH]; intros [l]; simpl; [done|].
  unfold Queue.dequeue. simpl. destruct l as [|x l]; simpl.
  - rewrite IH. simpl. by rewrite take_nil, drop_nil.
  - by rewrite IH.
Qed.

(** X1.  First in, first out: after enqueueing the items [xs] one by one,
    [n] dequeues return the first [n] items of what was queued before
    followed by [xs], in that order, and leave the rest; once the queue is
    empty further dequeues return nothing. *)
Theorem queue_fifo xs q (n : nat) :
  dequeue_n n (enqueue_all xs q)
    = (take n (Queue.toArray q ++ xs), Queue.Build (drop n (Queue.toArray q ++ xs))).
Proof. by rewrite dequeue_n_items, enqueue_all_items. Qed.

(** X2.  [dequeue] returns the item [peek] shows and removes exactly that
    item; on an empty queue both return nothing and [dequeue] changes
    nothing; [isEmpty] holds exactly when [size] is 0; [enqueue] adds one
    item at the end and does not change what [peek] shows on a non-empty
    queue. *)
Theorem queue_dequeue_peek q (x : T) :
  (Queue.dequeue q).1 = Queue.peek q ∧
  Queue.toArray q
    = option_list (Queue.dequeue q).1 ++ Queue.toArray (Queue.dequeue q).2 ∧
  (Queue.isEmpty q = true ↔ Queue.size q = 0%nat) ∧
  (Queue.isEmpty q = true → Queue.dequeue q = (None, q)) ∧
  (Queue.isEmpty q = false → S (Queue.size (Queue.dequeue q).2) = Queue.size q) ∧
  Queue.toArray (Queue.enqueue x q) = Queue.toArray q ++ [x] ∧
  (Queue.isEmpty q = false → Queue.peek (Queue.enqueue x q) = Queue.peek q) ∧
  (Queue.isEmpty q = true → Queue.peek (Queue.enqueue x q) = Some x).
Proof.
  destruct q as [[|y l]]; unfold Queue.isEmpty; simpl; split_and!; try done.
Qed.

Lemma topic_enqueue_all_spec xs tq :
  TopicQueue.queue (topic_enqueue_all xs tq) = enqueue_all xs (TopicQueue.queue tq) ∧
  TopicQueue.channel (topic_enqueue_all xs tq)
    = (λ posted, posted ++ xs) <$> TopicQueue.channel tq.
Proof.
  revert tq. induction xs as [|x xs IH]; intros tq; simpl.
  - split; [done|]. destruct (TopicQueue.channel tq); simpl; [|done].
    by rewrite app_nil_r.
  - destruct (IH (TopicQueue.enqueue x tq)) as [-> ->]. split; [done|].
    simpl. destruct (TopicQueue.channel tq); simpl; [|done].
    unfold Array_push. by rewrite <- app_assoc.
Qed.

(** X3.  The topic queue queues exactly what the plain queue does.  With a
    channel, the items enqueued are posted once each, in order; a
    [dequeue] posts nothing.  After [close] the items are still queued but
    nothing is posted any more. *)
Theorem topic_queue_posts xs tq :
  TopicQueue.queue (topic_enqueue_all xs tq) = enqueue_all xs (TopicQueue.queue tq) ∧
  TopicQueue.channel (topic_enqueue_all xs tq)
    = (λ posted, posted ++ xs) <$> TopicQueue.channel tq ∧
  TopicQueue.channel (TopicQueue.dequeue tq).2 = TopicQueue.channel tq ∧
  (TopicQueue.dequeue tq).1 = (Queue.dequeue (TopicQueue.queue tq)).1 ∧
  TopicQueue.queue (TopicQueue.close tq) = TopicQueue.queue tq ∧
  TopicQueue.channel (topic_enqueue_all xs (TopicQueue.close tq)) = None ∧
  TopicQueue.queue (topic_enqueue_all xs (TopicQueue.close tq))
    = enqueue_all xs (TopicQueue.queue tq).
Proof.
  destruct (topic_enqueue_all_spec xs tq) as [H1 H2].
  destruct (topic_enqueue_all_spec xs (TopicQueue.close tq)) as [H3 H4].
  split_and!; try done.
  - unfold TopicQueue.dequeue. by destruct (Queue.dequeue _).
  - unfold TopicQueue.dequeue. by destruct (Queue.dequeue _).
Qed.
End BasicQueueFacts.

(** ** The helpers *)

Section HelperFacts.
Context {T : Type}.

(** X4.  [sortByPriorityAndTime] is a consistent comparator: swapping the
    arguments negates the result, it is 0 exactly for equal priority and
    creation time, negative exactly when the first message has the higher
    priority or the same priority and an earlier creation time, and the
    order it induces is transitive. *)
Theorem sortByPriorityAndTime_consistent (a b c : Message T) :
  sortByPriorityAndTime b a = - sortByPriorityAndTime a b ∧
  (sortByPriorityAndTime a b = 0 ↔
     priority a = priority b ∧ createdAt a = createdAt b) ∧
  (sortByPriorityAndTime a b < 0 ↔
     priority b < priority a ∨
     (priority a = priority b ∧ createdAt a < createdAt b)) ∧
  (sortByPriorityAndTime a b ≤ 0 → sortByPriorityAndTime b c ≤ 0 →
   sortByPriorityAndTime a c ≤ 0).
Proof. unfold sortByPriorityAndTime. repeat case_decide; lia. Qed.
End HelperFacts.

Lemma append_dash_inj (t1 t2 r1 r2 : string) :
  dash_free t1 = true → dash_free t2 = true →
  t1 +:+ String dash r1 = t2 +:+ String dash r2 → t1 = t2 ∧ r1 = r2.
Proof.
  revert t2. induction t1 as [|c1 t1 IH]; intros [|c2 t2]; simpl.
  - intros _ _ [= ->]. done.
  - intros _ [Hc _]%andb_prop [= <- _].
    by rewrite Ascii.eqb_refl in Hc.
  - intros [Hc _]%andb_prop _ [= -> _].
    by rewrite Ascii.eqb_refl in Hc.
  - intros [_ H1]%andb_prop [_ H2]%andb_prop [= -> He].
    destruct (IH t2 H1 H2 He) as [-> ->]. done.
Qed.

(** X5.  [generateUniqueId] is injective on its two draws: when the
    timestamp parts contain no dash (as the base-36 digits of a
    non-negative clock reading do), equal ids come from equal timestamp
    parts and equal random parts; and an id is never the empty string. *)
Theorem generateUniqueId_injective (t1 r1 t2 r2 : string) :
  dash_free t1 = true → dash_free t2 = true →
  generateUniqueId t1 r1 = generateUniqueId t2 r2 →
  t1 = t2 ∧ r1 = r2 ∧ generateUniqueId t1 r1 ≠ EmptyString.
Proof.
  intros H1 H2 He. destruct (append_dash_inj t1 t2 r1 r2 H1 H2 He) as [-> ->].
  split_and!; try done. apply generateUniqueId_nonempty.
Qed.

Lemma generateUniqueId_injective_witness :
  dash_free "lx3k9" = true ∧
  generateUniqueId "lx3k9" "a1b2" ≠ EmptyString.
Proof.
  split; [reflexivity|].
  apply (generateUniqueId_injective "lx3k9" "a1b2" "lx3k9" "a1b2");
    reflexivity.
Defined.

(** ** Lookup, completion and the sweep *)

Section EngineFacts.
Context {T : Type}.
Implicit Types (h : Heap T) (m : Message T) (l : list ref) (r : ref)
  (q : AdvancedQueue T).

Lemma Array_find_app (P : Message T → Prop) `{∀ m, Decision (P m)} h l1 l2 :
  Array_find P h (l1 ++ l2) =
    match Array_find P h l1 with
    | Some x => Some x
    | None => (λ x, ((x.1.1 + length l1)%nat, x.1.2, x.2)) <$> Array_find P h l2
    end.
Proof.
  unfold Array_find.
  destruct (list_find (at_ref h P) l1) as [[k r]|] eqn:H1.
  - rewrite (list_find_app_l _ _ _ _ _ H1). simpl.
    apply list_find_Some in H1 as (_ & (m & -> & _)%at_ref_Some & _). done.
  - rewrite (list_find_app_r _ _ _ H1). simpl.
    destruct (list_find (at_ref h P) l2) as [[k r]|]; simpl; [|done].
    by destruct (h !! r).
Qed.

Lemma findMessageById_collections i q :
  findMessageById i q
    = (λ x, (x.1.2, x.2)) <$> Array_find (has_id i) (heap q) (collections q).
Proof.
  unfold findMessageById, collections. rewrite !Array_find_app.
  destruct (Array_find _ _ (messages q)) as [[[? ?] ?]|]; [done|].
  destruct (Array_find _ _ (delayedMessages q)) as [[[? ?] ?]|]; [done|].
  by destruct (Array_find _ _ (deadLetterMessages q)) as [[[? ?] ?]|].
Qed.

(** X6.  [findMessageById] scans the ready, then the delayed, then the
    dead-letter collection: it returns the first slot in that order whose
    message has the id, and nothing exactly when no slot of any collection
    has it. *)
Theorem findMessageById_spec (i : string) q :
  match findMessageById i q with
  | Some (r, m) =>
      heap q !! r = Some m ∧ id m = i ∧
      ∃ k, collections q !! k = Some r ∧
           ∀ j r' m', (j < k)%nat → collections q !! j = Some r' →
                      heap q !! r' = Some m' → id m' ≠ i
  | None => ∀ r m, r ∈ collections q → heap q !! r = Some m → id m ≠ i
  end.
Proof.
  rewrite findMessageById_collections.
  destruct (Array_find _ _ _) as [[[k r] m]|] eqn:Hf; simpl.
  - apply Array_find_Some in Hf as (Hk & Hr & Hi & Hmin).
    split_and!; try done. exists k. split; [done|].
    intros j r' m' Hlt Hj Hr' Hi'. apply (Hmin j r' Hj Hlt).
    apply at_ref_Some. eauto.
  - apply Array_find_None in Hf. rewrite Forall_forall in Hf.
    intros r m Hin Hr Hi. apply (Hf r Hin). apply at_ref_Some. eauto.
Qed.

(** X7.  [complete] returns true exactly when the id is in some
    collection.  It then marks the message found Completed and stamps
    [updatedAt], whatever the status and the collection of the message; it
    changes no other field, no other object and no collection.  For an
    unknown id it returns false and changes nothing. *)
Theorem complete_spec (now : Z) (i : string) q :
  match findMessageById i q with
  | Some (r, m) =>
      ∃ q' m',
        complete now i q = (true, q') ∧
        heap q' !! r = Some m' ∧
        status m' = COMPLETED ∧ updatedAt m' = now ∧
        frozen_fields m m' ∧
        delayUntil m' = delayUntil m ∧
        processingStartedAt m' = processingStartedAt m ∧
        processingAttempts m' = processingAttempts m ∧
        failureReason m' = failureReason m ∧
        (∀ r', r' ≠ r → heap q' !! r' = heap q !! r') ∧
        messages q' = messages q ∧
        delayedMessages q' = delayedMessages q ∧
        deadLetterMessages q' = deadLetterMessages q
  | None => complete now i q = (false, q)
  end.
Proof.
  unfold complete. destruct (findMessageById i q) as [[r m]|] eqn:Hf; [|done].
  pose proof (findMessageById_valid _ _ _ _ Hf) as Hlt.
  eexists _, (set_updatedAt now (set_status COMPLETED m)).
  split; [done|]. simpl. split_and!; try done.
  - by apply list_lookup_insert_eq.
  - intros r' Hne. by apply list_lookup_insert_ne.
Qed.

Lemma filter_none {A} (P : A → Prop) `{∀ x, Decision (P x)} (l : list A) :
  (∀ x, x ∈ l → ¬ P x) → filter P l = [].
Proof.
  induction l as [|x l IH]; intros Hl; [done|].
  rewrite filter_cons_False by (apply Hl; by left).
  apply IH. intros y Hy. apply Hl. by right.
Qed.

Lemma elapsed_promote now s m : elapsed now (promote s m) = elapsed now m.
Proof. done. Qed.

Lemma due_after_sweep now q r :
  due (heap (checkDelayedMessages now q)) now r ↔ due (heap q) now r.
Proof.
  destruct (checkDelayedMessages_spec now q) as (h' & -> & Hh'). simpl.
  unfold due, at_ref. rewrite Hh'. case_decide; [|done].
  by destruct (heap q !! r).
Qed.

Lemma sweep_twice now q :
  checkDelayedMessages now (checkDelayedMessages now q) = checkDelayedMessages now q.
Proof.
  pose proof (due_after_sweep now q) as Hdue.
  destruct (checkDelayedMessages_spec now (checkDelayedMessages now q))
    as (h2 & -> & Hh2).
  destruct (checkDelayedMessages_spec now q) as (h1 & Heq & Hh1).
  rewrite Heq in Hdue, Hh2 |- *. simpl in *.
  assert (filter (due h1 now) (filter (λ r, ¬ due (heap q) now r) (delayedMessages q))
          = []) as Hnone.
  { apply filter_none.
    intros r [Hn _]%list_elem_of_filter Hd. by apply Hn, Hdue. }
  assert (h2 = h1) as ->.
  { apply list_eq. intros r. rewrite Hh2. case_decide as Hd; [|done].
    destruct Hd as [[Hn _]%list_elem_of_filter Hd]. by destruct Hn; apply Hdue. }
  rewrite Hnone. f_equal.
  rewrite (list_filter_iff (λ r, ¬ due h1 now r) (λ r, ¬ due (heap q) now r))
    by (intros r; by rewrite Hdue).
  by apply list_filter_filter_l.
Qed.

Lemma filter_all {A} (P : A → Prop) `{∀ x, Decision (P x)} (l : list A) :
  Forall P l → filter P l = l.
Proof.
  induction 1 as [|x l Hx _ IH]; [done|]. by rewrite filter_cons_True, IH.
Qed.

(** X8.  The sweep is idempotent, and it acts only on what is due: a
    second [checkDelayedMessages] with the same clock reading changes
    nothing, and a sweep leaves the queue as it is exactly when no slot of
    the delayed collection is due. *)
Theorem checkDelayedMessages_idempotent (now : Z) q :
  checkDelayedMessages now (checkDelayedMessages now q) = checkDelayedMessages now q ∧
  (checkDelayedMessages now q = q ↔
   Forall (λ r, ¬ due (heap q) now r) (delayedMessages q)).
Proof.
  split; [apply sweep_twice|].
  destruct (checkDelayedMessages_spec now q) as (h' & -> & Hh'). split.
  - intros Heq. apply Forall_forall. intros r Hin.
    assert (r ∈ filter (λ r, ¬ due (heap q) now r) (delayedMessages q)) as Hf.
    { change (r ∈ delayedMessages
                (mkQueue h'
                   (match filter (due (heap q) now) (delayedMessages q) with
                    | [] => messages q
                    | _ :: _ =>
                        Array_sort (compare_refs h')
                          (messages q ++ filter (due (heap q) now) (delayedMessages q))
                    end)
                   (filter (λ r, ¬ due (heap q) now r) (delayedMessages q))
                   (deadLetterMessages q) (options q) (processingMessages q))).
      by rewrite Heq. }
    by apply list_elem_of_filter in Hf as [? _].
  - intros Hall.
    rewrite (filter_all _ _ Hall).
    rewrite (filter_none (due (heap q) now) (delayedMessages q))
      by (rewrite Forall_forall in Hall; intros r Hr; by apply Hall).
    assert (h' = heap q) as ->.
    { apply list_eq. intros r. rewrite Hh'. case_decide as Hd; [|done].
      destruct Hd as [Hin Hd]. rewrite Forall_forall in Hall.
      by destruct (Hall r Hin). }
    by destruct q.
Qed.
End EngineFacts.

(** ** Delays, selection and sizes *)

Section DelayFacts.
Context {T : Type}.
Implicit Types (h : Heap T) (m : Message T) (l : list ref) (r : ref)
  (q : AdvancedQueue T).

Lemma sweep_slot now q r m :
  r ∈ delayedMessages q → heap q !! r = Some m →
  if elapsed now m
  then heap (checkDelayedMessages now q) !! r = Some (promote now m) ∧
       r ∈ messages (checkDelayedMessages now q) ∧
       r ∉ delayedMessages (checkDelayedMessages now q)
  else heap (checkDelayedMessages now q) !! r = Some m ∧
       r ∈ delayedMessages (checkDelayedMessages now q).
Proof.
  intros Hin Hr.
  pose proof (checkDelayedMessages_elem_of now q r) as Hel.
  destruct (checkDelayedMessages_spec now q) as (h' & Heq & Hh').
  rewrite Heq in Hel |- *. simpl in *. rewrite Hh', Hr.
  assert (due (heap q) now r ↔ elapsed now m) as Hdue.
  { unfold due, at_ref. by rewrite Hr. }
  destruct (elapsed now m).
  - assert (due (heap q) now r) as Hd by by apply Hdue.
    rewrite decide_True by done. split_and!; [done| |].
    + apply Hel. by right.
    + intros [Hn _]%list_elem_of_filter. done.
  - assert (¬ due (heap q) now r) as Hd by (rewrite Hdue; intros []).
    rewrite decide_False by (intros [_ ?]; done). split; [done|].
    by apply list_elem_of_filter.
Qed.

(** X9.  The sweep judges a slot of the delayed collection by
    [delayUntil] alone: a message whose [delayUntil] is truthy and not
    after [now] becomes Pending with [updatedAt = now], whatever its status
    was (Delayed, Completed, Failed, ...), joins the ready collection and
    leaves the delayed one; any other message of the delayed collection
    stays there unchanged and is not added to the ready collection. *)
Theorem sweep_promotes_due (now : Z) q r m :
  r ∈ delayedMessages q → heap q !! r = Some m →
  (elapsed now m = true →
   heap (checkDelayedMessages now q) !! r = Some (promote now m) ∧
   r ∈ messages (checkDelayedMessages now q) ∧
   r ∉ delayedMessages (checkDelayedMessages now q)) ∧
  (elapsed now m = false →
   heap (checkDelayedMessages now q) !! r = Some m ∧
   r ∈ delayedMessages (checkDelayedMessages now q) ∧
   (r ∈ messages (checkDelayedMessages now q) → r ∈ messages q)).
Proof.
  intros Hin Hr. pose proof (sweep_slot now q r m Hin Hr) as Hsw.
  split; intros He; rewrite He in Hsw; [done|].
  destruct Hsw as [Hh Hd]. split_and!; [done..|].
  intros Hm. apply checkDelayedMessages_elem_of in Hm as [Hm|[_ Hdue]]; [done|].
  unfold due, at_ref in Hdue. rewrite Hr in Hdue. simpl in Hdue.
  rewrite He in Hdue. by destruct Hdue.
Qed.

Lemma dequeue_returns_pending t_sweep t_start t_upd q r :
  (dequeue t_sweep t_start t_upd q).1 = Some r →
  status_of (checkDelayedMessages t_sweep q) r = Some PENDING.
Proof.
  unfold dequeue, status_of.
  destruct (Array_find _ _ _) as [[[k r'] m]|] eqn:Hf; simpl; [|done].
  intros [= ->]. apply Array_find_elem_of in Hf as (_ & Hr & Hp).
  rewrite Hr. simpl. unfold has_status in Hp. by rewrite Hp.
Qed.

(** X10.  A message enqueued with a positive delay becomes available
    exactly when the delay has elapsed: it is created Delayed in the
    delayed collection with [delayUntil = now + delay]; a sweep at a time
    before [now + delay] leaves it there, and a [dequeue] at such a time
    does not return it; a sweep at [now + delay] or later makes it Pending
    in the ready collection. *)
Theorem delayed_enqueue_timing (now : Z) (ts rnd : string) (d : T)
    (eo : EnqueueOptions) q (delay s : Z) :
  opt_delay eo = Some delay → 0 < delay → 0 ≤ now →
  (truthy_string (opt_id eo) = true →
   findMessageById (default EmptyString (opt_id eo)) q = None) →
  (enqueue now ts rnd d eo q).1 = length (heap q) ∧
  status_of (enqueue now ts rnd d eo q).2 (length (heap q)) = Some DELAYED ∧
  delayUntil_of (enqueue now ts rnd d eo q).2 (length (heap q)) = Some (now + delay) ∧
  length (heap q) ∈ delayedMessages (enqueue now ts rnd d eo q).2 ∧
  (s < now + delay →
   status_of (checkDelayedMessages s (enqueue now ts rnd d eo q).2) (length (heap q))
     = Some DELAYED ∧
   length (heap q)
     ∈ delayedMessages (checkDelayedMessages s (enqueue now ts rnd d eo q).2) ∧
   ∀ t1 t2, (dequeue s t1 t2 (enqueue now ts rnd d eo q).2).1 ≠ Some (length (heap q))) ∧
  (now + delay ≤ s →
   status_of (checkDelayedMessages s (enqueue now ts rnd d eo q).2) (length (heap q))
     = Some PENDING ∧
   length (heap q)
     ∈ messages (checkDelayedMessages s (enqueue now ts rnd d eo q).2) ∧
   length (heap q)
     ∉ delayedMessages (checkDelayedMessages s (enqueue now ts rnd d eo q).2)).
Proof.
  intros Hd Hpos Hnow Hnew.
  destruct (enqueue_created now ts rnd d eo q Hnew)
    as (m & q' & -> & Hh & _ & _ & _ & _ & _ & Hst & _ & Hplace).
  rewrite Hd in Hst, Hplace. simpl in *.
  rewrite bool_decide_true in Hplace by done. destruct Hplace as (Hdu & _ & Hperm).
  assert ((delay =? 0) = false) as Hnz by (apply Z.eqb_neq; lia).
  rewrite Hnz in Hst. simpl in Hst.
  assert (heap q' !! length (heap q) = Some m) as Hr
    by (rewrite Hh; by apply list_lookup_middle).
  assert (length (heap q) ∈ delayedMessages q') as Hin.
  { rewrite Hperm. apply elem_of_app. right. by left. }
  pose proof (sweep_slot s q' _ m Hin Hr) as Hsw.
  assert (elapsed s m = bool_decide (now + delay ≤ s)) as Hel.
  { unfold elapsed. rewrite Hdu. simpl.
    replace (now + delay =? 0) with false by (symmetry; apply Z.eqb_neq; lia).
    done. }
  rewrite Hel in Hsw. unfold status_of, delayUntil_of. rewrite Hr. simpl.
  rewrite Hst, Hdu. split_and!; try done.
  - intros Hlt. rewrite bool_decide_false in Hsw by lia.
    destruct Hsw as [Hr' Hin']. rewrite Hr'. simpl. rewrite Hst.
    split_and!; try done.
    intros t1 t2 Hdq%dequeue_returns_pending. unfold status_of in Hdq.
    rewrite Hr' in Hdq. simpl in Hdq. congruence.
  - intros Hle. rewrite bool_decide_true in Hsw by done.
    destruct Hsw as (Hr' & Hin' & Hout'). rewrite Hr'. done.
Qed.

(** X11.  When [enqueue] creates a message and the [delay] option is
    absent, zero or positive, the message starts with the given payload,
    priority (0 when absent), [createdAt = updatedAt = now] and no
    attempts; with a positive delay it is Delayed, has
    [delayUntil = now + delay] and is added to the delayed collection;
    otherwise it is Pending, has no [delayUntil] and is added to the ready
    collection.  The other collections are not touched. *)
Theorem enqueue_creates (now : Z) (ts rnd : string) (d : T)
    (eo : EnqueueOptions) q :
  (truthy_string (opt_id eo) = true →
   findMessageById (default EmptyString (opt_id eo)) q = None) →
  0 ≤ default 0 (opt_delay eo) →
  ∃ m q',
    enqueue now ts rnd d eo q = (length (heap q), q') ∧
    heap q' = heap q ++ [m] ∧
    data m = d ∧ priority m = default 0 (opt_priority eo) ∧
    createdAt m = now ∧ updatedAt m = now ∧ processingAttempts m = 0 ∧
    deadLetterMessages q' = deadLetterMessages q ∧
    if bool_decide (0 < default 0 (opt_delay eo))
    then status m = DELAYED ∧
         delayUntil m = Some (now + default 0 (opt_delay eo)) ∧
         messages q' = messages q ∧
         delayedMessages q' ≡ₚ delayedMessages q ++ [length (heap q)]
    else status m = PENDING ∧
         delayUntil m = None ∧
         messages q' ≡ₚ messages q ++ [length (heap q)] ∧
         delayedMessages q' = delayedMessages q.
Proof.
  intros Hnew Hnn.
  destruct (enqueue_created now ts rnd d eo q Hnew)
    as (m & q' & He & Hh & ? & ? & ? & ? & ? & Hst & ? & Hplace).
  exists m, q'. split_and!; try done.
  case_bool_decide as Hpos.
  - destruct Hplace as (? & ? & ?). split_and!; try done.
    rewrite Hst. destruct (opt_delay eo) as [z|]; simpl in *; [|lia].
    by replace (z =? 0) with false by (symmetry; apply Z.eqb_neq; lia).
  - destruct Hplace as (? & ? & ?). split_and!; try done.
    rewrite Hst. destruct (opt_delay eo) as [z|]; simpl in *; [|done].
    by replace (z =? 0) with true by (symmetry; apply Z.eqb_eq; lia).
Qed.

(** X12.  [peek] and [dequeue] agree: with the same clock reading they
    select the same message, a [dequeue] right after a [peek] returns the
    message the [peek] showed, and a second [peek] changes nothing. *)
Theorem peek_then_dequeue (now t1 t2 : Z) q :
  (peek now q).1 = (dequeue now t1 t2 q).1 ∧
  (dequeue now t1 t2 (peek now q).2).1 = (peek now q).1 ∧
  peek now (peek now q).2 = peek now q.
Proof.
  unfold peek, dequeue. simpl. rewrite sweep_twice.
  by destruct (Array_find _ _ _) as [[[k r] m]|].
Qed.

Lemma filter_length_le {A} (P P' : A → Prop)
    `{∀ x, Decision (P x)} `{∀ x, Decision (P' x)} (l : list A) :
  (∀ y, P' y → P y) → (length (filter P' l) ≤ length (filter P l))%nat.
Proof.
  intros Himp. induction l as [|y l IH]; [done|].
  rewrite !filter_cons. destruct (decide (P' y)) as [Hy|Hy].
  - rewrite decide_True by auto. simpl. lia.
  - destruct (decide (P y)); simpl; lia.
Qed.

Lemma filter_length_lt {A} (P P' : A → Prop)
    `{∀ x, Decision (P x)} `{∀ x, Decision (P' x)} (l : list A) x :
  (∀ y, P' y → P y) → x ∈ l → P x → ¬ P' x →
  (length (filter P' l) < length (filter P l))%nat.
Proof.
  intros Himp Hin Hx Hnx. induction Hin as [x l|x y l Hin IH].
  - rewrite (filter_cons_True P) by done. rewrite (filter_cons_False P') by done.
    pose proof (filter_length_le P P' l Himp). simpl. lia.
  - specialize (IH Hx Hnx).
    rewrite !filter_cons. destruct (decide (P' y)) as [Hy|Hy].
    + rewrite decide_True by auto. simpl. lia.
    + destruct (decide (P y)); simpl; lia.
Qed.

(** X13.  [dequeue] returns nothing exactly when the queue is empty in
    the sense of [isEmpty] after the opening sweep ([size] 0: no Pending
    message in the ready collection); when it returns a message, [size]
    drops below what it was after the sweep. *)
Theorem dequeue_size (t_sweep t_start t_upd : Z) q :
  ((dequeue t_sweep t_start t_upd q).1 = None ↔
   isEmpty (checkDelayedMessages t_sweep q) = true) ∧
  (is_Some (dequeue t_sweep t_start t_upd q).1 →
   (size (dequeue t_sweep t_start t_upd q).2
    < size (checkDelayedMessages t_sweep q))%nat).
Proof.
  unfold dequeue, isEmpty, size.
  set (q1 := checkDelayedMessages t_sweep q).
  destruct (Array_find _ _ _) as [[[k r] m]|] eqn:Hf; simpl.
  - pose proof (Array_find_elem_of _ _ _ _ _ _ Hf) as (Hin & Hr & Hp).
    split.
    + split; [done|]. intros Hz%bool_decide_eq_true. exfalso.
      apply length_zero_iff_nil in Hz.
      eapply (filter_nil_not_elem_of _ _ r Hz); [|done].
      apply at_ref_Some. eauto.
    + intros _. apply (filter_length_lt _ _ _ r); try done.
      * intros x (y & Hy & Hs)%at_ref_Some. apply at_ref_Some.
        destruct (decide (x = r)) as [->|Hne].
        -- rewrite list_lookup_insert_eq in Hy by by eapply lookup_lt_Some.
           injection Hy as <-. done.
        -- rewrite list_lookup_insert_ne in Hy by done. eauto.
      * apply at_ref_Some. eauto.
      * intros (y & Hy & Hs)%at_ref_Some.
        rewrite list_lookup_insert_eq in Hy by by eapply lookup_lt_Some.
        injection Hy as <-. done.
  - split; [|by intros [? [=]]]. split; [|done]. intros _.
    apply bool_decide_eq_true. apply Array_find_None in Hf.
    rewrite filter_none; [done|]. by apply Forall_forall.
Qed.
End DelayFacts.

Lemma sweep_promotes_due_witness :
  0%nat ∈ delayedMessages (one_delayed DEFAULT_QUEUE_OPTIONS) ∧
  status_of (checkDelayedMessages 1000 (one_delayed DEFAULT_QUEUE_OPTIONS)) 0%nat
    = Some PENDING ∧
  0%nat ∈ messages (checkDelayedMessages 1000 (one_delayed DEFAULT_QUEUE_OPTIONS)).
Proof.
  assert (0%nat ∈ delayedMessages (one_delayed DEFAULT_QUEUE_OPTIONS)) as Hin
    by (vm_compute; left).
  split; [exact Hin|].
  destruct (heap (one_delayed DEFAULT_QUEUE_OPTIONS) !! 0%nat) as [m|] eqn:Hm;
    [|vm_compute in Hm; discriminate].
  pose proof (sweep_promotes_due 1000 _ 0%nat m Hin Hm) as [Hdue _].
  vm_compute in Hm. injection Hm as <-.
  destruct Hdue as (Hh & Hmsg & _); [reflexivity|]. split; [|exact Hmsg].
  unfold status_of. rewrite Hh. reflexivity.
Defined.

Lemma delayed_enqueue_timing_witness :
  findMessageById "b" (one_ready DEFAULT_QUEUE_OPTIONS) = None ∧
  status_of (enqueue 5 "t" "r" "later" (with_id_delay "b" 500)
               (one_ready DEFAULT_QUEUE_OPTIONS)).2 1%nat = Some DELAYED ∧
  status_of (checkDelayedMessages 504
               (enqueue 5 "t" "r" "later" (with_id_delay "b" 500)
                  (one_ready DEFAULT_QUEUE_OPTIONS)).2) 1%nat = Some DELAYED ∧
  status_of (checkDelayedMessages 505
               (enqueue 5 "t" "r" "later" (with_id_delay "b" 500)
                  (one_ready DEFAULT_QUEUE_OPTIONS)).2) 1%nat = Some PENDING.
Proof.
  split; [reflexivity|].
  assert (0 < 500) as Hpos by lia. assert (0 ≤ 5) as Hnow by lia.
  split_and!.
  - apply (delayed_enqueue_timing 5 "t" "r" "later" (with_id_delay "b" 500)
             (one_ready DEFAULT_QUEUE_OPTIONS) 500 505 eq_refl Hpos Hnow
             (λ _, eq_refl)).
  - apply (delayed_enqueue_timing 5 "t" "r" "later" (with_id_delay "b" 500)
             (one_ready DEFAULT_QUEUE_OPTIONS) 500 504 eq_refl Hpos Hnow
             (λ _, eq_refl)). lia.
  - apply (delayed_enqueue_timing 5 "t" "r" "later" (with_id_delay "b" 500)
             (one_ready DEFAULT_QUEUE_OPTIONS) 500 505 eq_refl Hpos Hnow
             (λ _, eq_refl)). lia.
Defined.

Lemma enqueue_creates_witness :
  ∃ m q',
    enqueue 3 "t" "r" "job" (with_priority 7) (new_queue DEFAULT_QUEUE_OPTIONS)
      = (0%nat, q') ∧
    priority m = 7 ∧ status m = PENDING ∧ heap q' = [m] ∧
    delayedMessages q' = [].
Proof.
  assert (0 ≤ default 0 (opt_delay (with_priority 7))) as Hnn by (simpl; lia).
  destruct (enqueue_creates 3 "t" "r" "job" (with_priority 7)
              (new_queue DEFAULT_QUEUE_OPTIONS) (λ H, eq_refl) Hnn)
    as (m & q' & He & Hh & _ & Hp & _ & _ & _ & _ & Hif).
  change (bool_decide _) with false in Hif.
  destruct Hif as (Hs & _ & _ & Hd).
  exists m, q'. split_and!; [exact He|exact Hp|exact Hs|exact Hh|exact Hd].
Defined.

(** ** What the calls do to the fields of a message *)

Section FieldFacts.
Context {T : Type}.
Implicit Types (h : Heap T) (m : Message T) (l : list ref) (r : ref)
  (q : AdvancedQueue T).

(** A relation [R] between the old and the new contents of an object that
    every field assignment of the engine respects, except possibly the
    reset of the attempt counter. *)
Variable R : relation (Message T).
Hypothesis R_refl : ∀ m, R m m.
Hypothesis R_trans : ∀ m1 m2 m3, R m1 m2 → R m2 m3 → R m1 m3.
Hypothesis R_status : ∀ s m, R m (set_status s m).
Hypothesis R_updatedAt : ∀ t m, R m (set_updatedAt t m).
Hypothesis R_delayUntil : ∀ d m, R m (set_delayUntil d m).
Hypothesis R_processingStartedAt : ∀ t m, R m (set_processingStartedAt t m).
Hypothesis R_failureReason : ∀ s m, R m (set_failureReason s m).
Hypothesis R_attempts_up :
  ∀ m, R m (set_processingAttempts (processingAttempts m + 1) m).

Lemma R_attempts_incremented n m :
  n = processingAttempts m + 1 → R m (set_processingAttempts n m).
Proof. intros ->. apply R_attempts_up. Qed.

Ltac assignments :=
  repeat first
    [ apply R_refl
    | eapply R_trans;
      [|first [ apply R_status | apply R_updatedAt | apply R_delayUntil
              | apply R_processingStartedAt | apply R_failureReason
              | apply R_attempts_incremented; reflexivity ]] ].

Lemma heap_related_refl h : heap_related R h h.
Proof. intros r m ?. eauto. Qed.

Lemma heap_related_trans h1 h2 h3 :
  heap_related R h1 h2 → heap_related R h2 h3 → heap_related R h1 h3.
Proof.
  intros H12 H23 r m Hr. destruct (H12 r m Hr) as (m2 & Hr2 & ?).
  destruct (H23 r m2 Hr2) as (m3 & Hr3 & ?). eauto.
Qed.

Lemma heap_related_insert h r m m' :
  h !! r = Some m → R m m' → heap_related R h (<[r := m']> h).
Proof.
  intros Hr HR r' x Hx. destruct (decide (r' = r)) as [->|Hne].
  - exists m'. rewrite list_lookup_insert_eq by by eapply lookup_lt_Some.
    by simplify_eq.
  - exists x. rewrite list_lookup_insert_ne by done. eauto.
Qed.

Lemma heap_related_app h h2 : heap_related R h (h ++ h2).
Proof. intros r m Hr. exists m. split; [by apply lookup_app_l_Some|done]. Qed.

Lemma checkDelayedMessages_related now q :
  heap_related R (heap q) (heap (checkDelayedMessages now q)).
Proof.
  destruct (checkDelayedMessages_spec now q) as (h' & -> & Hh'). simpl.
  intros r m Hr. rewrite Hh', Hr. case_decide; eexists; (split; [done|]).
  - unfold promote. assignments.
  - done.
Qed.

Lemma enqueue_related now ts rnd d eo q :
  heap_related R (heap q) (heap (enqueue now ts rnd d eo q).2).
Proof.
  unfold enqueue.
  destruct (if truthy_string (opt_id eo) then _ else None) as [[r m]|].
  - apply heap_related_refl.
  - destruct (truthy_number (opt_delay eo) && _); simpl; apply heap_related_app.
Qed.

Lemma dequeue_related t_sweep t_start t_upd q :
  heap_related R (heap q) (heap (dequeue t_sweep t_start t_upd q).2).
Proof.
  eapply heap_related_trans; [apply (checkDelayedMessages_related t_sweep)|].
  unfold dequeue. destruct (Array_find _ _ _) as [[[k r] m]|] eqn:Hf; simpl.
  - apply Array_find_elem_of in Hf as (_ & Hr & _).
    eapply heap_related_insert; [done|]. assignments.
  - apply heap_related_refl.
Qed.

Lemma complete_related now i q :
  heap_related R (heap q) (heap (complete now i q).2).
Proof.
  unfold complete. destruct (findMessageById i q) as [[r m]|] eqn:Hf; simpl.
  - apply findMessageById_Some in Hf as (_ & Hr & _).
    eapply heap_related_insert; [done|]. assignments.
  - apply heap_related_refl.
Qed.

Lemma fail_related t_upd t_retry t_sweep i reason q :
  heap_related R (heap q) (heap (fail t_upd t_retry t_sweep i reason q).2).
Proof.
  unfold fail. destruct (findMessageById i q) as [[r m]|] eqn:Hf; simpl;
    [|apply heap_related_refl].
  apply findMessageById_Some in Hf as (_ & Hr & _).
  case_bool_decide; [|destruct (deadLetterEnabled (options q))]; simpl.
  - destruct (autoCheckDelayed (options q)).
    + eapply heap_related_trans; [|apply checkDelayedMessages_related]. simpl.
      eapply heap_related_insert; [done|]. assignments.
    + simpl. eapply heap_related_insert; [done|]. assignments.
  - eapply heap_related_insert; [done|]. assignments.
  - eapply heap_related_insert; [done|]. assignments.
Qed.

Lemma cancelDelayed_related i q :
  heap_related R (heap q) (heap (cancelDelayed i q).2).
Proof.
  unfold cancelDelayed. destruct (Array_find _ _ _) as [[[k r] m]|]; simpl;
    apply heap_related_refl.
Qed.

Lemma retryDeadLetter_related now i q :
  (∀ m, R m (set_processingAttempts 0 m)) →
  heap_related R (heap q) (heap (retryDeadLetter now i q).2).
Proof.
  intros R_reset. unfold retryDeadLetter.
  destruct (Array_find _ _ _) as [[[k r] m]|] eqn:Hf; simpl;
    [|apply heap_related_refl].
  apply Array_find_elem_of in Hf as (_ & Hr & _).
  eapply heap_related_insert; [done|].
  eapply R_trans; [apply R_reset|]. assignments.
Qed.

Lemma step_related (op : Op T) q :
  keeps_attempts op = true ∨ (∀ m, R m (set_processingAttempts 0 m)) →
  heap_related R (heap q) (heap (step op q)).
Proof.
  intros Hop. destruct op; simpl.
  - apply enqueue_related.
  - apply checkDelayedMessages_related.
  - apply dequeue_related.
  - apply complete_related.
  - apply fail_related.
  - apply cancelDelayed_related.
  - destruct Hop as [[=]|Hreset]. by apply retryDeadLetter_related.
  - apply checkDelayedMessages_related.
  - apply heap_related_refl.
Qed.

Lemma run_related (ops : list (Op T)) q :
  Forall (λ op, keeps_attempts op = true) ops ∨ (∀ m, R m (set_processingAttempts 0 m)) →
  heap_related R (heap q) (heap (run ops q)).
Proof.
  revert q. induction ops as [|op ops IH]; intros q Hops; simpl.
  - apply heap_related_refl.
  - eapply heap_related_trans; [apply (step_related op)|apply IH].
    + destruct Hops as [[? _]%Forall_cons|?]; auto.
    + destruct Hops as [[_ ?]%Forall_cons|?]; auto.
Qed.
End FieldFacts.

Section FieldTheorems.
Context {T : Type}.
Implicit Types (h : Heap T) (m : Message T) (r : ref) (q : AdvancedQueue T).

(** X14.  No sequence of calls ever deallocates a message object or
    changes its [id], its payload, its [priority] or its [createdAt]. *)
Theorem run_keeps_frozen_fields (ops : list (Op T)) q r m :
  heap q !! r = Some m →
  ∃ m', heap (run ops q) !! r = Some m' ∧ frozen_fields m m'.
Proof.
  apply (run_related frozen_fields); try (by intros; repeat split).
  - intros m1 m2 m3 (? & ? & ? & ?) (? & ? & ? & ?).
    unfold frozen_fields. split_and!; congruence.
  - right. by intros; repeat split.
Qed.

(** X15.  [processingAttempts] never decreases along calls other than
    [retryDeadLetter]. *)
Theorem attempts_never_decrease (ops : list (Op T)) q r m m' :
  Forall (λ op, keeps_attempts op = true) ops →
  heap q !! r = Some m → heap (run ops q) !! r = Some m' →
  processingAttempts m ≤ processingAttempts m'.
Proof.
  intros Hops Hr Hr'.
  assert (heap_related (λ a b, processingAttempts a ≤ processingAttempts b)
            (heap q) (heap (run ops q))) as Hrel.
  { apply run_related; try (intros; simpl; lia). by left. }
  destruct (Hrel r m Hr) as (x & Hx & Hle). congruence.
Qed.
End FieldTheorems.

Lemma run_keeps_frozen_fields_witness :
  ∃ m',
    heap (run [OpFail 1 1 1 "a" (Some "boom"); OpTick 2000; OpDequeue 2001 2001 2001;
               OpClear] (one_ready DEFAULT_QUEUE_OPTIONS)) !! 0%nat = Some m' ∧
    id m' = "a" ∧ data m' = "job" ∧ priority m' = 0 ∧ createdAt m' = 0.
Proof.
  destruct (heap (one_ready DEFAULT_QUEUE_OPTIONS) !! 0%nat) as [m|] eqn:Hm;
    [|vm_compute in Hm; discriminate].
  destruct (run_keeps_frozen_fields
              [OpFail 1 1 1 "a" (Some "boom"); OpTick 2000; OpDequeue 2001 2001 2001;
               OpClear] _ 0%nat m Hm) as (m' & Hm' & Hi & Hd & Hp & Hc).
  vm_compute in Hm. injection Hm as <-.
  exists m'. split_and!; [exact Hm'|exact Hi|exact Hd|exact Hp|exact Hc].
Defined.

Lemma attempts_never_decrease_witness :
  ∃ m',
    heap (run [OpFail 1 1 1 "a" (Some "boom"); OpTick 2000]
            (one_ready DEFAULT_QUEUE_OPTIONS)) !! 0%nat = Some m' ∧
    0 ≤ processingAttempts m'.
Proof.
  destruct (heap (one_ready DEFAULT_QUEUE_OPTIONS) !! 0%nat) as [m|] eqn:Hm;
    [|vm_compute in Hm; discriminate].
  destruct (heap (run [OpFail 1 1 1 "a" (Some "boom"); OpTick 2000]
                    (one_ready DEFAULT_QUEUE_OPTIONS)) !! 0%nat) as [m'|] eqn:Hm';
    [|vm_compute in Hm'; discriminate].
  exists m'. split; [reflexivity|].
  assert (Forall (λ op : Op string, keeps_attempts op = true)
            [OpFail 1 1 1 "a" (Some "boom"); OpTick 2000]) as Hops
    by (repeat constructor).
  pose proof (attempts_never_decrease _ _ 0%nat m m' Hops Hm Hm') as Hle.
  vm_compute in Hm. injection Hm as <-. exact Hle.
Defined.

(** ** Invariants and how the calls compose *)

Section ComposeFacts.
Context {T : Type}.
Implicit Types (h : Heap T) (m : Message T) (l : list ref) (r : ref)
  (q : AdvancedQueue T).

Lemma enqueue_generated now ts rnd d eo q :
  invariant q → truthy_string (opt_id eo) = false →
  ¬ present (generateUniqueId ts rnd) q →
  ∃ m q',
    enqueue now ts rnd d eo q = (length (heap q), q') ∧
    findMessageById (generateUniqueId ts rnd) q' = Some (length (heap q), m).
Proof.
  intros Hinv Hf Hfresh%findMessageById_None. unfold enqueue. rewrite Hf.
  destruct (truthy_number (opt_delay eo) && _).
  - eexists _, _. split; [done|].
    apply find_after_alloc; [done..|].
    intros r. unfold collections, Array_push.
    rewrite !elem_of_app, Array_sort_elem_of, elem_of_app, list_elem_of_singleton.
    tauto.
  - eexists _, _. split; [done|].
    apply find_after_alloc; [done..|].
    intros r. unfold collections, Array_push.
    rewrite !elem_of_app, Array_sort_elem_of, elem_of_app, list_elem_of_singleton.
    tauto.
Qed.

(** X16.  Insert, then look up: in every state reached from the empty
    queue, the message that [enqueue] returns is the one
    [findMessageById] finds afterwards under the id of the call, both for
    an explicit non-empty id (new or already present) and for a generated
    id that no present message has. *)
Theorem enqueue_then_find (o : QueueOptions) (ops : list (Op T))
    (now : Z) (ts rnd : string) (d : T) (eo : EnqueueOptions) :
  (∀ X, opt_id eo = Some X → X ≠ EmptyString →
     ∃ m, findMessageById X (enqueue now ts rnd d eo (run ops (new_queue o))).2
            = Some ((enqueue now ts rnd d eo (run ops (new_queue o))).1, m) ∧
          id m = X) ∧
  (truthy_string (opt_id eo) = false →
   ¬ present (generateUniqueId ts rnd) (run ops (new_queue o)) →
     ∃ m, findMessageById (generateUniqueId ts rnd)
            (enqueue now ts rnd d eo (run ops (new_queue o))).2
            = Some ((enqueue now ts rnd d eo (run ops (new_queue o))).1, m) ∧
          id m = generateUniqueId ts rnd).
Proof.
  pose proof (reachable_invariant o ops) as Hinv. split.
  - intros X Ho HX.
    destruct (findMessageById X (run ops (new_queue o))) as [[r m]|] eqn:Hf.
    + rewrite (enqueue_existing now ts rnd d eo _ X r m) by done. simpl.
      exists m. split; [done|]. by apply findMessageById_Some in Hf as (_ & _ & ?).
    + destruct (enqueue_fresh now ts rnd d eo _ X Hinv Ho HX Hf)
        as (m & q' & -> & _ & Hf' & _).
      exists m. split; [done|]. by apply findMessageById_Some in Hf' as (_ & _ & ?).
  - intros Ht Hfresh.
    destruct (enqueue_generated now ts rnd d eo _ Hinv Ht Hfresh)
      as (m & q' & -> & Hf').
    exists m. split; [done|]. by apply findMessageById_Some in Hf' as (_ & _ & ?).
Qed.

(** X17.  In every state reached from the empty queue the ready
    collection is sorted by the ordering policy (priority descending, then
    [createdAt] ascending), every slot of the three collections refers to
    an allocated message, and no message has the empty string as its
    id. *)
Theorem reachable_ready_sorted (o : QueueOptions) (ops : list (Op T)) :
  sorted_by (heap (run ops (new_queue o))) ordering_policy
    (messages (run ops (new_queue o))) ∧
  (∀ r, r ∈ collections (run ops (new_queue o)) →
        is_Some (heap (run ops (new_queue o)) !! r)) ∧
  (∀ r m, heap (run ops (new_queue o)) !! r = Some m → id m ≠ EmptyString).
Proof.
  destruct (reachable_invariant o ops) as [Hv Hs _ Hi]. split_and!.
  - by apply StronglySorted_sorted_by.
  - by apply Forall_forall.
  - rewrite Forall_lookup in Hi. intros r m. apply Hi.
Qed.

(** X18.  Retry round trip: when [fail] leaves a message Delayed (below
    [maxRetries], not swept at once), a later sweep before
    [now + retryDelay] leaves it Delayed in the delayed collection, and a
    sweep at or after that time brings it back as Pending in the ready
    collection with the incremented attempt count and the failure reason
    kept. *)
Theorem fail_then_sweep (t_upd t_retry t_sweep s : Z) (i : string)
    (reason : option string) q r m :
  findMessageById i q = Some (r, m) →
  processingAttempts m + 1 < maxRetries (options q) →
  swept_at_once (options q) t_retry t_sweep = false →
  (s < t_retry + retryDelay (options q) →
   status_of (checkDelayedMessages s (fail t_upd t_retry t_sweep i reason q).2) r
     = Some DELAYED ∧
   r ∈ delayedMessages (checkDelayedMessages s (fail t_upd t_retry t_sweep i reason q).2)) ∧
  (t_retry + retryDelay (options q) ≤ s → t_retry + retryDelay (options q) ≠ 0 →
   ∃ m',
     heap (checkDelayedMessages s (fail t_upd t_retry t_sweep i reason q).2) !! r
       = Some m' ∧
     status m' = PENDING ∧ updatedAt m' = s ∧
     processingAttempts m' = processingAttempts m + 1 ∧
     failureReason m' = reason ∧
     r ∈ messages (checkDelayedMessages s (fail t_upd t_retry t_sweep i reason q).2) ∧
     r ∉ delayedMessages
           (checkDelayedMessages s (fail t_upd t_retry t_sweep i reason q).2)).
Proof.
  intros Hf Hlt Hns.
  destruct (fail_found t_upd t_retry t_sweep i reason q r m Hf)
    as (q' & m1 & -> & Hr1 & _ & Ha & Hre & H1 & _).
  destruct (H1 Hlt) as [Hdu Hst]. rewrite Hns in Hst.
  destruct Hst as (Hst & Hin & _). simpl.
  pose proof (sweep_slot s q' r m1 Hin Hr1) as Hsw.
  assert (elapsed s m1 =
            negb (t_retry + retryDelay (options q) =? 0)
            && bool_decide (t_retry + retryDelay (options q) ≤ s)) as Hel.
  { unfold elapsed. by rewrite Hdu. }
  rewrite Hel in Hsw. split.
  - intros Hs. rewrite bool_decide_false, andb_false_r in Hsw by lia.
    destruct Hsw as [Hr' Hin']. unfold status_of. rewrite Hr'. simpl.
    by rewrite Hst.
  - intros Hs Hnz. rewrite bool_decide_true in Hsw by done.
    replace (t_retry + retryDelay (options q) =? 0) with false in Hsw
      by (symmetry; by apply Z.eqb_neq).
    destruct Hsw as (Hr' & Hin' & Hout'). exists (promote s m1).
    split_and!; done.
Qed.

Lemma totalSize_collections q : totalSize q = length (collections q).
Proof. unfold totalSize, collections. rewrite !length_app. lia. Qed.

Lemma checkDelayedMessages_slots now q :
  collections (checkDelayedMessages now q) ≡ₚ collections q.
Proof.
  destruct (checkDelayedMessages_spec now q) as (h' & -> & _).
  unfold collections. simpl. rewrite !app_assoc. f_equiv.
  transitivity (messages q ++ filter (due (heap q) now) (delayedMessages q)
                ++ filter (λ r, ¬ due (heap q) now r) (delayedMessages q)).
  - rewrite app_assoc. f_equiv.
    destruct (filter (due (heap q) now) (delayedMessages q)) eqn:Hf.
    + by rewrite app_nil_r.
    + by rewrite Array_sort_perm.
  - f_equiv. apply filter_app_complement.
Qed.

(** X19.  Slots are neither added nor dropped by [peek], [dequeue],
    [complete], [retryDeadLetter] and the timer sweep: they permute the
    slots of the three collections, so [totalSize] is unchanged.
    [cancelDelayed] drops exactly one slot when it returns true and none
    otherwise, and [enqueue] adds at most one. *)
Theorem slots_accounting (op : Op T) q :
  (keeps_slots op = true →
   collections (step op q) ≡ₚ collections q ∧ totalSize (step op q) = totalSize q) ∧
  (∀ i, S (totalSize (cancelDelayed i q).2) = totalSize q ∨
        ((cancelDelayed i q).1 = false ∧ (cancelDelayed i q).2 = q)) ∧
  (∀ i, (cancelDelayed i q).1 = true → S (totalSize (cancelDelayed i q).2) = totalSize q) ∧
  (∀ now ts rnd d eo,
     totalSize (enqueue now ts rnd d eo q).2 = totalSize q ∨
     totalSize (enqueue now ts rnd d eo q).2 = S (totalSize q)).
Proof.
  assert (∀ i, (cancelDelayed i q).1 = true →
               S (totalSize (cancelDelayed i q).2) = totalSize q) as Hcancel.
  { intros i. unfold cancelDelayed.
    destruct (Array_find _ _ _) as [[[k r] m]|] eqn:Hf; simpl; [|done].
    intros _. apply Array_find_Some in Hf as (Hk & _).
    unfold totalSize, Array_splice1. simpl.
    rewrite length_delete by eauto.
    apply lookup_lt_Some in Hk. lia. }
  split_and!; [|intros i|done|].
  - intros Hop.
    assert (collections (step op q) ≡ₚ collections q) as Hperm.
    { destruct op; try done; simpl.
      - apply checkDelayedMessages_slots.
      - rewrite <- (checkDelayedMessages_slots t_sweep q). unfold dequeue.
        by destruct (Array_find _ _ _) as [[[k r] m]|].
      - unfold complete. by destruct (findMessageById _ _) as [[r m]|].
      - unfold retryDeadLetter.
        destruct (Array_find _ _ _) as [[[k r] m]|] eqn:Hf; simpl; [|done].
        apply Array_find_Some in Hf as (Hk & _).
        unfold collections, Array_push, Array_splice1. simpl.
        rewrite Array_sort_perm.
        pose proof (delete_Permutation _ _ _ Hk) as Hd.
        transitivity (messages q ++ delayedMessages q
                      ++ r :: delete k (deadLetterMessages q)).
        + rewrite <- !app_assoc. f_equiv. simpl.
          by rewrite <- Permutation_middle.
        + by rewrite <- Hd.
      - apply checkDelayedMessages_slots. }
    split; [done|]. by rewrite !totalSize_collections, Hperm.
  - destruct ((cancelDelayed i q).1) eqn:Hc; [left; by apply Hcancel|right].
    split; [done|]. revert Hc. unfold cancelDelayed.
    by destruct (Array_find _ _ _) as [[[k r] m]|].
  - intros now ts rnd d eo. unfold enqueue.
    destruct (if truthy_string (opt_id eo) then _ else None) as [[r m]|];
      [by left|right].
    destruct (truthy_number (opt_delay eo) && _); unfold totalSize, Array_push; simpl;
      rewrite Array_sort_length, length_app; simpl; lia.
Qed.

Lemma findMessageById_empty i h o pm :
  findMessageById i (mkQueue (T := T) h [] [] [] o pm) = None.
Proof. done. Qed.

(** X20.  [clear] (and [dispose]) forget every message: afterwards
    [totalSize] and [size] are 0, no id is found, [complete], [fail],
    [cancelDelayed] and [retryDeadLetter] return false and change nothing,
    [dequeue] returns nothing, and [enqueue] with any id, also one that
    was present before, creates a new message. *)
Theorem clear_forgets (i : string) (now t1 t2 t3 : Z) (reason : option string)
    (ts rnd : string) (d : T) (eo : EnqueueOptions) q :
  dispose q = clear q ∧
  totalSize (clear q) = 0%nat ∧ size (clear q) = 0%nat ∧
  isEmpty (clear q) = true ∧
  findMessageById i (clear q) = None ∧
  complete now i (clear q) = (false, clear q) ∧
  fail t1 t2 t3 i reason (clear q) = (false, clear q) ∧
  cancelDelayed i (clear q) = (false, clear q) ∧
  retryDeadLetter now i (clear q) = (false, clear q) ∧
  dequeue t1 t2 t3 (clear q) = (None, clear q) ∧
  (enqueue now ts rnd d eo (clear q)).1 = length (heap q) ∧
  totalSize (enqueue now ts rnd d eo (clear q)).2 = 1%nat.
Proof.
  split_and!; try done.
  - unfold enqueue, clear. rewrite findMessageById_empty.
    destruct (truthy_string (opt_id eo)); by destruct (truthy_number _ && _).
  - unfold enqueue, clear. rewrite findMessageById_empty.
    destruct (truthy_string (opt_id eo)); by destruct (truthy_number _ && _).
Qed.

Lemma topic_step_base (op : Op T) (tq : Topic.AdvancedTopicQueue T) :
  Topic.base (Topic.step op tq) = step op (Topic.base tq).
Proof.
  destruct op; try done. simpl. unfold Topic.enqueue.
  by destruct (enqueue _ _ _ _ _ _).
Qed.

Lemma topic_run_base (ops : list (Op T)) (tq : Topic.AdvancedTopicQueue T) :
  Topic.base (Topic.run ops tq) = run ops (Topic.base tq).
Proof.
  revert tq. induction ops as [|op ops IH]; intros tq; [done|].
  simpl. change (Topic.base (Topic.run ops (Topic.step op tq))
                 = run ops (step op (Topic.base tq))).
  by rewrite IH, topic_step_base.
Qed.

Lemma topic_run_no_channel (ops : list (Op T)) (tq : Topic.AdvancedTopicQueue T) :
  Topic.channel tq = None → Topic.channel (Topic.run ops tq) = None.
Proof.
  revert tq. induction ops as [|op ops IH]; intros tq Hc; [done|].
  change (Topic.channel (Topic.run ops (Topic.step op tq)) = None).
  apply IH. destruct op; simpl; try done. unfold Topic.enqueue.
  destruct (enqueue _ _ _ _ _ _). simpl. by rewrite Hc.
Qed.

(** X21.  The topic queue behaves as the advanced queue on its
    collections, whatever the channel.  After [close] all collections are
    empty and the channel is gone: whatever is called afterwards acts as
    on an emptied advanced queue, and nothing is posted any more (the
    timers that [dispose] stops are not modelled; sweeps are calls like
    any other here). *)
Theorem topic_close_silent (ops : list (Op T)) (tq : Topic.AdvancedTopicQueue T) :
  Topic.base (Topic.run ops tq) = run ops (Topic.base tq) ∧
  totalSize (Topic.base (topic_close tq)) = 0%nat ∧
  Topic.base (Topic.run ops (topic_close tq)) = run ops (clear (Topic.base tq)) ∧
  Topic.channel (Topic.run ops (topic_close tq)) = None ∧
  Topic.posts (Topic.run ops (topic_close tq)) = 0%nat.
Proof.
  split_and!.
  - apply topic_run_base.
  - done.
  - by rewrite topic_run_base.
  - by apply topic_run_no_channel.
  - unfold Topic.posts. by rewrite topic_run_no_channel.
Qed.
End ComposeFacts.

Lemma fail_then_sweep_witness :
  is_Some (findMessageById "a" (one_ready DEFAULT_QUEUE_OPTIONS)) ∧
  ∃ m',
    heap (checkDelayedMessages 1001
            (fail 1 1 1 "a" (Some "boom") (one_ready DEFAULT_QUEUE_OPTIONS)).2)
      !! 0%nat = Some m' ∧
    status m' = PENDING ∧ processingAttempts m' = 1 ∧
    failureReason m' = Some "boom".
Proof.
  destruct (findMessageById "a" (one_ready DEFAULT_QUEUE_OPTIONS))
    as [[r m]|] eqn:Hf; [|vm_compute in Hf; discriminate].
  split; [by eexists|].
  pose proof (fail_then_sweep 1 1 1 1001 "a" (Some "boom") _ r m Hf) as Hfs.
  vm_compute in Hf. injection Hf as <- <-.
  destruct Hfs as [_ Hlate]; [simpl; lia|reflexivity|].
  destruct Hlate as (m' & Hm' & Hs & _ & Ha & Hr & _); [simpl; lia..|].
  exists m'. split_and!; [exact Hm'|exact Hs|exact Ha|exact Hr].
Defined.
